(** * Mock SFTP server (src/mock-sftp/server.ts): a shallow embedding

    The development follows the source file top-down: the path sandbox
    ([normalizePath]), the key store ([ensureHostKey]), the authentication
    handler, the per-session SFTP request handlers with their two handle
    tables, and the module-level start-up singleton
    ([startMockSftpServer]).

    The Node.js runtime the code calls into (POSIX [path.resolve], the
    [fs] calls with their argument checks, the FileHandle objects of
    [fs/promises] and what becomes of them, [Buffer.alloc],
    [Buffer.writeUInt32BE], [Buffer.toString('hex')]) is modelled next to
    the code that uses it; each such definition says so. *)

From Stdlib Require Import ZArith String Ascii List Lia Sorted.
From Stdlib Require Import Strings.Byte.
From stdpp Require Import gmap strings list.

Local Open Scope Z_scope.

(** ** Errors and results *)

(** POSIX error codes the [fs] model can produce. *)
Inductive Errno := ENOENT | EACCES | ENOTDIR | EISDIR | EBADF | EIO.

(** What a JavaScript [throw] / promise rejection carries in this file. *)
Inductive Error :=
| PathEscape                (* new Error('Path escapes root') *)
| RangeError                (* ERR_OUT_OF_RANGE from Node's argument checks *)
| FsError (e : Errno).      (* a rejected fs / fsp call *)

Inductive Result (A : Type) :=
| Ok (a : A)
| Err (e : Error).
Arguments Ok {A} a.
Arguments Err {A} e.

(** ** Path sandbox *)

Module Path.

(** [s.split('/')]: the segments between separators, empty ones kept. *)
Fixpoint split (s : string) : list string :=
  match s with
  | EmptyString => [EmptyString]
  | String c s' =>
      if Ascii.eqb c "/" then EmptyString :: split s'
      else match split s' with
           | seg :: segs => String c seg :: segs
           | [] => [String c EmptyString]
           end
  end.

(** [segs.join('/')]. *)
Fixpoint joinSegments (segs : list string) : string :=
  match segs with
  | [] => EmptyString
  | [seg] => seg
  | seg :: rest => seg +:+ "/" +:+ joinSegments rest
  end.

(** One separator-delimited segment of Node's [normalizeString], on the
    stack of segments kept so far (last kept segment first): empty and
    "." segments are dropped; ".." pops the last kept segment unless
    there is none or it is itself ".." (then ".." is kept only when
    [allowAboveRoot]); any other segment is pushed. *)
Definition normalizeSegment (allowAboveRoot : bool)
    (kept : list string) (seg : string) : list string :=
  if String.eqb seg "" || String.eqb seg "." then kept
  else if String.eqb seg ".." then
    match kept with
    | last :: rest =>
        if String.eqb last ".."
        then (if allowAboveRoot then ".." :: kept else kept)
        else rest
    | [] => if allowAboveRoot then [".."] else []
    end
  else seg :: kept.

(** Node's [normalizeString(path, allowAboveRoot, '/')]. *)
Definition normalizeString (path : string) (allowAboveRoot : bool) : string :=
  joinSegments
    (rev (fold_left (normalizeSegment allowAboveRoot) (split path) [])).

Definition isAbsolute (p : string) : bool := String.prefix "/" p.

(** The right-to-left loop of [path.resolve]: prepend arguments until an
    absolute one has been seen, skipping empty ones. *)
Fixpoint resolveLoop (revArgs : list string) (resolvedPath : string)
    : string * bool :=
  match revArgs with
  | [] => (resolvedPath, false)
  | p :: rest =>
      if String.eqb p "" then resolveLoop rest resolvedPath
      else
        let resolvedPath' := p +:+ "/" +:+ resolvedPath in
        if isAbsolute p then (resolvedPath', true)
        else resolveLoop rest resolvedPath'
  end.

(** POSIX [path.resolve(...args)]; [cwd] is [process.cwd()], used only
    when no argument is absolute. *)
Definition resolve (cwd : string) (args : list string) : string :=
  let '(resolvedPath, resolvedAbsolute) :=
    resolveLoop (rev args ++ [cwd]) "" in
  let normalized := normalizeString resolvedPath (negb resolvedAbsolute) in
  if resolvedAbsolute then "/" +:+ normalized
  else if String.eqb normalized "" then "." else normalized.

Fixpoint endsWithSlash (s : string) : bool :=
  match s with
  | EmptyString => false
  | String c EmptyString => Ascii.eqb c "/"
  | String _ s' => endsWithSlash s'
  end.

(** POSIX [path.normalize(path)]. *)
Definition normalize (path : string) : string :=
  if String.eqb path "" then "."
  else
    let absolute := isAbsolute path in
    let trailingSeparator := endsWithSlash path in
    let normalized := normalizeString path (negb absolute) in
    if String.eqb normalized "" then
      (if absolute then "/" else if trailingSeparator then "./" else ".")
    else
      let normalized :=
        if trailingSeparator then normalized +:+ "/" else normalized in
      if absolute then "/" +:+ normalized else normalized.

(** POSIX [path.join(...args)]: the non-empty arguments joined by "/",
    then normalized. *)
Definition join (args : list string) : string :=
  let joined :=
    joinSegments (filter (fun arg => arg ≠ EmptyString) args) in
  if String.eqb joined "" then "." else normalize joined.

(** [normalizePath(requestPath, rootDir)] of server.ts. *)
Definition normalizePath (cwd requestPath rootDir : string) : Result string :=
  let cleanPath :=
    if String.eqb requestPath "" || String.eqb requestPath "."
    then "/" else requestPath in
  let cleanPath :=
    if negb (String.prefix "/" cleanPath) then "/" +:+ cleanPath
    else cleanPath in
  let resolved := resolve cwd [rootDir; "." +:+ cleanPath] in
  if negb (String.prefix rootDir resolved) then Err PathEscape
  else Ok resolved.

(** The non-empty components of a path. *)
Definition components (p : string) : list string :=
  filter (fun seg => seg ≠ EmptyString) (split p).

Fixpoint list_prefixb (l1 l2 : list string) : bool :=
  match l1, l2 with
  | [], _ => true
  | x :: l1', y :: l2' => String.eqb x y && list_prefixb l1' l2'
  | _ :: _, [] => false
  end.

(** A path lies within a directory when the directory's components are
    the leading components of the path: the directory itself or
    something below it. *)
Definition within (root p : string) : bool :=
  list_prefixb (components root) (components p).

End Path.

(** ** The filesystem seen through Node's [fs] module

    A path names what is there now.  An open descriptor refers to the file
    it was opened on and not to the path that led to it: it goes on
    reading that file when the path is unlinked or renamed, so a
    descriptor carries the bytes of its file.  The server only reads; when
    something else writes to a file, the world that leaves has the new
    bytes at the path and under the descriptors open on the file.
    Descriptors are process-wide, so they live here and not in the
    session. *)

Record Stats := {
  st_mode : Z;
  st_uid : Z;
  st_gid : Z;
  st_size : Z;
  st_atimeMs : Z;
  st_mtimeMs : Z;
  st_isDirectory : bool
}.

Inductive Node :=
| NFile (st : Stats) (data : list byte)
| NDir (st : Stats) (entries : list string).

Definition node_stats (n : Node) : Stats :=
  match n with NFile st _ => st | NDir st _ => st end.

(** What a descriptor is open on. *)
Inductive Opened :=
| OnFile (data : list byte)
| OnDir.

Record Descriptor := {
  opened : Opened;
  position : Z      (* the file offset, used by a read that names none *)
}.

Definition open_on (n : Node) : Opened :=
  match n with NFile _ data => OnFile data | NDir _ _ => OnDir end.

Record World := {
  nodes : gmap string Node;      (* absolute path -> what is there *)
  fds : gmap Z Descriptor;       (* open descriptor -> what it is open on *)
  next_fd : Z
}.

(** The calls a handler makes into [fs] / [fs/promises], in order. *)
Inductive FsCall :=
| CallStat (p : string)
| CallLstat (p : string)
| CallReaddir (p : string)
| CallOpen (p : string)
| CallRead (fd offset length : Z)
| CallClose (fd : Z).

Definition world_stat (w : World) (p : string) : Result Stats :=
  match nodes w !! p with
  | Some n => Ok (node_stats n)
  | None => Err (FsError ENOENT)
  end.

Definition world_readdir (w : World) (p : string) : Result (list string) :=
  match nodes w !! p with
  | Some (NDir _ entries) => Ok entries
  | Some (NFile _ _) => Err (FsError ENOTDIR)
  | None => Err (FsError ENOENT)
  end.

(** [open(p, 'r')]: a new descriptor on what is at [p], its offset at the
    start; the lowest-numbered free descriptor is stood in for by a
    counter. *)
Definition world_open (w : World) (p : string) : Result Z * World :=
  match nodes w !! p with
  | Some n =>
      (Ok (next_fd w),
       {| nodes := nodes w;
          fds := <[next_fd w := {| opened := open_on n; position := 0 |}]>
                   (fds w);
          next_fd := next_fd w + 1 |})
  | None => (Err (FsError ENOENT), w)
  end.

(** The read libuv makes for [fs.read]: with a position, [pread], the
    bytes of the file in [position, position + length), fewer at the end
    of the file, none at or past it; with position -1, [read], the same
    from the descriptor's own offset, which moves on by what was read. *)
Definition world_read (w : World) (fd position' length : Z)
    : Result (list byte) * World :=
  match fds w !! fd with
  | None => (Err (FsError EBADF), w)
  | Some d =>
      match opened d with
      | OnDir => (Err (FsError EISDIR), w)
      | OnFile data =>
          if position' =? -1 then
            let chunk :=
              take (Z.to_nat length) (drop (Z.to_nat (position d)) data) in
            (Ok chunk,
             {| nodes := nodes w;
                fds := <[fd := {| opened := opened d;
                                  position := position d
                                              + Z.of_nat (List.length chunk) |}]>
                         (fds w);
                next_fd := next_fd w |})
          else
            (Ok (take (Z.to_nat length) (drop (Z.to_nat position') data)), w)
      end
  end.

Definition world_close (w : World) (fd : Z) : Result unit * World :=
  match fds w !! fd with
  | Some _ =>
      (Ok tt,
       {| nodes := nodes w; fds := delete fd (fds w); next_fd := next_fd w |})
  | None => (Err (FsError EBADF), w)
  end.

(** ** Buffers, handle identifiers and JavaScript numbers *)

Definition byte_of_Z (z : Z) : byte :=
  match Byte.of_N (Z.to_N (Z.land z 255)) with
  | Some b => b
  | None => x00
  end.

Definition Z_of_byte (b : byte) : Z := Z.of_N (Byte.to_N b).

(** [Buffer.alloc(4)] followed by [buf.writeUInt32BE(value, 0)]: Node
    throws ERR_OUT_OF_RANGE unless [0 <= value <= 2^32 - 1]. *)
Definition writeUInt32BE (value : Z) : Result (list byte) :=
  if (0 <=? value) && (value <=? 4294967295) then
    Ok [byte_of_Z (Z.shiftr value 24); byte_of_Z (Z.shiftr value 16);
        byte_of_Z (Z.shiftr value 8); byte_of_Z value]
  else Err RangeError.

(** [buf.readUInt32BE(0)] on a 4-byte buffer; how a handle identifier is
    read back as a number. *)
Definition readUInt32BE (buf : list byte) : option Z :=
  match buf with
  | [b0; b1; b2; b3] =>
      Some (Z_of_byte b0 * 16777216 + Z_of_byte b1 * 65536
            + Z_of_byte b2 * 256 + Z_of_byte b3)
  | _ => None
  end.

Definition hexDigit (n : Z) : ascii :=
  match n with
  | 0 => "0" | 1 => "1" | 2 => "2" | 3 => "3" | 4 => "4" | 5 => "5"
  | 6 => "6" | 7 => "7" | 8 => "8" | 9 => "9" | 10 => "a" | 11 => "b"
  | 12 => "c" | 13 => "d" | 14 => "e" | _ => "f"
  end%char.

(** [handle.toString('hex')]. *)
Fixpoint handleKey (handle : list byte) : string :=
  match handle with
  | [] => EmptyString
  | b :: rest =>
      String (hexDigit (Z_of_byte b / 16))
        (String (hexDigit (Z_of_byte b mod 16)) (handleKey rest))
  end.

(** [c++] on a JavaScript number holding a non-negative integer: exact
    below 2^53, where the double stops moving. *)
Definition js_succ (c : Z) : Z :=
  if c <? 9007199254740992 then c + 1 else c.

Definition toInt32 (z : Z) : Z := (z + 2147483648) mod 4294967296 - 2147483648.

(** [a & b]: both operands go through ToInt32. *)
Definition js_bitand (a b : Z) : Z := Z.land (toInt32 a) (toInt32 b).

(** [Number.MAX_SAFE_INTEGER], and [buffer.constants.MAX_LENGTH] of a
    64-bit build. *)
Definition MAX_SAFE_INTEGER : Z := 9007199254740991.
Definition MAX_LENGTH : Z := 9007199254740991.

(** [Buffer.alloc(size)], memory permitting: Node throws ERR_OUT_OF_RANGE
    unless [0 <= size <= MAX_LENGTH].  The buffer is stood in for by its
    length. *)
Definition Buffer_alloc (size : Z) : Result Z :=
  if (0 <=? size) && (size <=? MAX_LENGTH) then Ok size else Err RangeError.

(** [utils.sftp.OPEN_MODE] and [utils.sftp.STATUS_CODE] of ssh2 (the SFTP
    protocol's SSH_FXF_* and SSH_FX_* constants). *)
Module OPEN_MODE.
Definition READ : Z := 1.
Definition WRITE : Z := 2.
Definition APPEND : Z := 4.
Definition CREAT : Z := 8.
Definition TRUNC : Z := 16.
Definition EXCL : Z := 32.
End OPEN_MODE.

Module STATUS_CODE.
Inductive t := OK | EOF | NO_SUCH_FILE | PERMISSION_DENIED | FAILURE.
End STATUS_CODE.

(** ** Configuration *)

Record MockSftpConfig := {
  port : Z;
  host : string;
  username : string;
  password : string;
  rootDir : string;
  keyPath : string
}.

(** ** Authentication handler *)

(** The fields of ssh2's authentication context the handler reads;
    [ctx.password] is [undefined] for every method but 'password'. *)
Record AuthContext := {
  ctx_method : string;
  ctx_username : string;
  ctx_password : option string
}.

Inductive AuthDecision := Accept | Reject.

(** [x === s] for a value that is a string or [undefined]. *)
Definition strictEqString (x : option string) (s : string) : bool :=
  match x with
  | Some x' => String.eqb x' s
  | None => false
  end.

(** [client.on('authentication', ctx => ...)]. *)
Definition on_authentication (config : MockSftpConfig) (ctx : AuthContext)
    : AuthDecision :=
  if String.eqb (ctx_method ctx) "password"
     && String.eqb (ctx_username ctx) (username config)
     && strictEqString (ctx_password ctx) (password config)
  then Accept
  else Reject.

(** ** Session state and the handlers' effects *)

(** The value type of [openDirs]. *)
Record DirInfo := {
  files : list string;
  index : nat;
  dirPath : string
}.

(** The closure variables of one [session.on('sftp', ...)] callback. *)
Record Session := {
  openFiles : gmap string Z;
  openDirs : gmap string DirInfo;
  handleCount : Z
}.

(** What a handler can read and change: its session, the filesystem, and
    the record of the filesystem calls made so far (latest last).

    [fileHandles] are the FileHandle objects [fsp.open] has resolved to,
    each by the number of the descriptor it owns.  The OPEN handler keeps
    that number ([fd.fd]) and lets go of the object, so every one of them
    is unreachable once its handler has returned; Node closes the
    descriptor of such an object when the collector gets to it (see
    [finalize]). *)
Record St := {
  sess : Session;
  world : World;
  calls : list FsCall;
  fileHandles : list Z
}.

(** Handlers run in a state monad with exceptions; an exception keeps the
    state changes made before it, as in JavaScript.  A handler is run from
    its request to its reply in one go: what the source does across an
    [await] or a callback (the filesystem call, then the reply) comes after
    its last read of the tables for READ, READDIR and CLOSE, and before its
    only write to them for OPEN and OPENDIR. *)
Definition M (A : Type) : Type := St -> Result A * St.

#[local] Instance M_ret : MRet M := fun A a st => (Ok a, st).

#[local] Instance M_bind : MBind M := fun A B k m st =>
  match m st with
  | (Ok a, st') => k a st'
  | (Err e, st') => (Err e, st')
  end.

(** A synchronous library call that returns or throws. *)
Definition lift {A} (r : Result A) : M A := fun st => (r, st).

(** [try { body } catch (error) { handler }]. *)
Definition try_catch {A} (body : M A) (handler : Error -> M A) : M A :=
  fun st =>
    match body st with
    | (Ok a, st') => (Ok a, st')
    | (Err e, st') => handler e st'
    end.

Definition get_sess : M Session := fun st => (Ok (sess st), st).

Definition put_sess (s : Session) : M unit := fun st =>
  (Ok tt, {| sess := s; world := world st; calls := calls st;
             fileHandles := fileHandles st |}).

(** A filesystem call: logged, answered by the world, which it may change. *)
Definition fs_call {A} (c : FsCall) (f : World -> Result A * World) : M A :=
  fun st =>
    let '(r, w') := f (world st) in
    (r, {| sess := sess st; world := w'; calls := calls st ++ [c];
           fileHandles := fileHandles st |}).

Definition fsp_stat (p : string) : M Stats :=
  fs_call (CallStat p) (fun w => (world_stat w p, w)).

(** The model has no symbolic links, so [lstat] answers as [stat]. *)
Definition fsp_lstat (p : string) : M Stats :=
  fs_call (CallLstat p) (fun w => (world_stat w p, w)).

Definition fsp_readdir (p : string) : M (list string) :=
  fs_call (CallReaddir p) (fun w => (world_readdir w p, w)).

(** [new FileHandle] inside [fsp.open]. *)
Definition new_FileHandle (fd : Z) : M unit := fun st =>
  (Ok tt, {| sess := sess st; world := world st; calls := calls st;
             fileHandles := fileHandles st ++ [fd] |}).

(** [fsp.open(p, 'r')] resolves to a FileHandle; what is returned here is
    its [fd] property, the only thing the OPEN handler uses of it. *)
Definition fsp_open (p : string) : M Z :=
  fd ← fs_call (CallOpen p) (fun w => world_open w p);
  new_FileHandle fd;;
  mret fd.

(** Node's [fs.read(fd, buffer, 0, length, position, callback)] on a
    buffer of [length] bytes.  Before anything is read the arguments are
    checked, and a failed check is thrown at the caller, not passed to the
    callback: [length |= 0] comes first; zero bytes asked for are answered
    with zero bytes, without a system call; a negative length (which is
    what [|= 0] makes of 2^31 to 2^32 - 1) and a position that is not a
    safe integer from -1 on are ERR_OUT_OF_RANGE.  What the callback gets
    is the inner result: [Err] is its [err], [Ok] its [bytesRead] bytes. *)
Definition fs_read (fd length position' : Z) : M (Result (list byte)) :=
  let length' := toInt32 length in
  if length' =? 0 then mret (Ok [])
  else if length' <? 0 then lift (Err RangeError)
  else if (position' <? -1) || (MAX_SAFE_INTEGER <? position')
  then lift (Err RangeError)
  else fun st =>
    let '(r, w') := world_read (world st) fd position' length' in
    (Ok r, {| sess := sess st; world := w';
              calls := calls st ++ [CallRead fd position' length'];
              fileHandles := fileHandles st |}).

Definition fs_close (fd : Z) : M unit :=
  fs_call (CallClose fd) (fun w => world_close w fd).

(** ** Requests and replies *)

Record Attrs := {
  mode : Z;
  uid : Z;
  gid : Z;
  size : Z;
  atime : Z;
  mtime : Z
}.

(** [attrsFromStat(stat)]; [Math.floor(ms / 1000)] is [Z.div]. *)
Definition attrsFromStat (stat : Stats) : Attrs :=
  {| mode := st_mode stat;
     uid := st_uid stat;
     gid := st_gid stat;
     size := st_size stat;
     atime := st_atimeMs stat / 1000;
     mtime := st_mtimeMs stat / 1000 |}.

(** The long-form description of a name entry: "/" for REALPATH, and for a
    directory entry the pieces the template string is built from (type
    letter, size, modification date, entry name). *)
Inductive Longname :=
| LongnameRoot
| LongnameEntry (isDirectory : bool) (size : Z) (mtimeMs : Z) (entry : string).

Record NameEntry := {
  filename : string;
  longname : Longname;
  attrs : option Attrs        (* None is the empty object {} *)
}.

(** The one frame a handler sends back: [sftpStream.status], [.attrs],
    [.handle], [.name] or [.data]. *)
Inductive Reply :=
| Status (code : STATUS_CODE.t)
| AttrsReply (a : Attrs)
| HandleReply (handle : list byte)
| NameReply (entries : list NameEntry)
| DataReply (data : list byte).

(** The requests the stream has handlers for; offsets, lengths and flags
    are the unsigned integers of the wire format. *)
Inductive Request :=
| REALPATH (givenPath : string)
| STAT (pathname : string)
| LSTAT (pathname : string)
| OPENDIR (pathname : string)
| READDIR (handle : list byte)
| OPEN (filename : string) (flags : Z)
| READ (handle : list byte) (offset length : Z)
| CLOSE (handle : list byte).

Section Handlers.

Variable config : MockSftpConfig.
(** [process.cwd()], which [path.resolve] falls back on. *)
Variable cwd : string.

(** [createHandle]: the counter is bumped before [writeUInt32BE] runs,
    so the bump survives a throw. *)
Definition createHandle : M (list byte) :=
  s ← get_sess;
  put_sess {| openFiles := openFiles s;
              openDirs := openDirs s;
              handleCount := js_succ (handleCount s) |};;
  lift (writeUInt32BE (handleCount s)).

Definition openFiles_set (key : string) (fd : Z) : M unit :=
  s ← get_sess;
  put_sess {| openFiles := <[key := fd]> (openFiles s);
              openDirs := openDirs s;
              handleCount := handleCount s |}.

Definition openFiles_delete (key : string) : M unit :=
  s ← get_sess;
  put_sess {| openFiles := delete key (openFiles s);
              openDirs := openDirs s;
              handleCount := handleCount s |}.

Definition openDirs_set (key : string) (d : DirInfo) : M unit :=
  s ← get_sess;
  put_sess {| openFiles := openFiles s;
              openDirs := <[key := d]> (openDirs s);
              handleCount := handleCount s |}.

Definition openDirs_delete (key : string) : M unit :=
  s ← get_sess;
  put_sess {| openFiles := openFiles s;
              openDirs := delete key (openDirs s);
              handleCount := handleCount s |}.

Definition on_REALPATH (givenPath : string) : M Reply :=
  mret (NameReply
          [{| filename := "/"; longname := LongnameRoot; attrs := None |}]).

Definition on_STAT (pathname : string) : M Reply :=
  try_catch
    (resolved ← lift (Path.normalizePath cwd pathname (rootDir config));
     stat ← fsp_stat resolved;
     mret (AttrsReply (attrsFromStat stat)))
    (fun _ => mret (Status STATUS_CODE.FAILURE)).

Definition on_LSTAT (pathname : string) : M Reply :=
  try_catch
    (resolved ← lift (Path.normalizePath cwd pathname (rootDir config));
     stat ← fsp_lstat resolved;
     mret (AttrsReply (attrsFromStat stat)))
    (fun _ => mret (Status STATUS_CODE.FAILURE)).

Definition on_OPENDIR (pathname : string) : M Reply :=
  try_catch
    (resolved ← lift (Path.normalizePath cwd pathname (rootDir config));
     files ← fsp_readdir resolved;
     handle ← createHandle;
     openDirs_set (handleKey handle)
                  {| files := files; index := 0; dirPath := resolved |};;
     mret (HandleReply handle))
    (fun _ => mret (Status STATUS_CODE.FAILURE)).

(** The bounds test [dirInfo.index >= dirInfo.files.length] and the
    access [dirInfo.files[dirInfo.index]] are one list lookup here: it
    is [None] exactly when the index is out of range.  [index++] is
    written back into the table entry, which the source mutates in
    place, before the entry is stat-ed. *)
Definition on_READDIR (handle : list byte) : M Reply :=
  let key := handleKey handle in
  s ← get_sess;
  match openDirs s !! key with
  | None => mret (Status STATUS_CODE.FAILURE)
  | Some dirInfo =>
      match files dirInfo !! index dirInfo with
      | None => mret (Status STATUS_CODE.EOF)
      | Some entry =>
          openDirs_set key {| files := files dirInfo;
                              index := S (index dirInfo);
                              dirPath := dirPath dirInfo |};;
          let fullPath := Path.join [dirPath dirInfo; entry] in
          try_catch
            (stat ← fsp_stat fullPath;
             mret (NameReply
                     [{| filename := entry;
                         longname :=
                           LongnameEntry (st_isDirectory stat)
                                         (st_size stat) (st_mtimeMs stat)
                                         entry;
                         attrs := Some (attrsFromStat stat) |}]))
            (fun _ => mret (Status STATUS_CODE.FAILURE))
      end
  end.

Definition on_OPEN (filename : string) (flags : Z) : M Reply :=
  try_catch
    (if js_bitand flags OPEN_MODE.READ =? 0 then
       mret (Status STATUS_CODE.PERMISSION_DENIED)
     else
       resolved ← lift (Path.normalizePath cwd filename (rootDir config));
       fd ← fsp_open resolved;
       handle ← createHandle;
       openFiles_set (handleKey handle) fd;;
       mret (HandleReply handle))
    (fun _ => mret (Status STATUS_CODE.FAILURE)).

(** [buffer.subarray(0, bytesRead)] is the list the world returned.  The
    handler has no [try]: what [Buffer.alloc] or [fs.read] throws leaves
    it, and no frame is sent. *)
Definition on_READ (handle : list byte) (offset length : Z) : M Reply :=
  let key := handleKey handle in
  s ← get_sess;
  match openFiles s !! key with
  | None => mret (Status STATUS_CODE.FAILURE)
  | Some fd =>
      lift (Buffer_alloc length);;
      outcome ← fs_read fd length offset;
      match outcome with
      | Err _ => mret (Status STATUS_CODE.FAILURE)
      | Ok [] => mret (Status STATUS_CODE.EOF)
      | Ok data => mret (DataReply data)
      end
  end.

Definition on_CLOSE (handle : list byte) : M Reply :=
  let key := handleKey handle in
  s ← get_sess;
  match openFiles s !! key with
  | Some fd =>
      openFiles_delete key;;
      try_catch
        (fs_close fd;; mret (Status STATUS_CODE.OK))
        (fun _ => mret (Status STATUS_CODE.FAILURE))
  | None =>
      match openDirs s !! key with
      | Some _ =>
          openDirs_delete key;;
          mret (Status STATUS_CODE.OK)
      | None => mret (Status STATUS_CODE.FAILURE)
      end
  end.

(** The [sftpStream.on(...)] registrations as one dispatcher. *)
Definition dispatch (r : Request) : M Reply :=
  match r with
  | REALPATH p => on_REALPATH p
  | STAT p => on_STAT p
  | LSTAT p => on_LSTAT p
  | OPENDIR p => on_OPENDIR p
  | READDIR h => on_READDIR h
  | OPEN f flags => on_OPEN f flags
  | READ h offset length => on_READ h offset length
  | CLOSE h => on_CLOSE h
  end.

(** What a handler's reply frame is: a handler that lets an exception
    escape sends nothing (only READ can; see [dispatch_replies]). *)
Definition handle_request (r : Request) (st : St) : option Reply * St :=
  match dispatch r st with
  | (Ok reply, st') => (Some reply, st')
  | (Err _, st') => (None, st')
  end.

(** The collector finalises the [i]-th FileHandle left behind: Node
    closes the descriptor whose number the object holds, whatever that
    number is open on by then, and the object is gone.  This is no call of
    a handler, and no handler hears of its outcome: a close that fails
    there, the number having been closed by CLOSE in the meantime, is
    raised by Node outside any handler. *)
Definition finalize (i : nat) (st : St) : St :=
  match fileHandles st !! i with
  | Some fd =>
      {| sess := sess st;
         world := snd (world_close (world st) fd);
         calls := calls st;
         fileHandles := delete i (fileHandles st) |}
  | None => st
  end.

(** What happens to a session over time: a client request, the rest of
    the machine changing the filesystem under the server, or a garbage
    collection between two requests. *)
Inductive Event :=
| Client (r : Request)
| Outside (w : World)
| Collect (i : nat).

Definition apply_event (st : St) (ev : Event) : option Reply * St :=
  match ev with
  | Client r => handle_request r st
  | Outside w => (None, {| sess := sess st; world := w; calls := calls st;
                           fileHandles := fileHandles st |})
  | Collect i => (None, finalize i st)
  end.

Fixpoint run (st : St) (evs : list Event) : list Reply * St :=
  match evs with
  | [] => ([], st)
  | ev :: rest =>
      let '(reply, st') := apply_event st ev in
      let '(replies, st'') := run st' rest in
      (match reply with Some r => r :: replies | None => replies end, st'')
  end.

End Handlers.

(** A fresh session: both tables empty, the counter at zero. *)
Definition new_session : Session :=
  {| openFiles := ∅; openDirs := ∅; handleCount := 0 |}.

Definition start (w : World) : St :=
  {| sess := new_session; world := w; calls := []; fileHandles := [] |}.

(** ** Key store *)

(** What the outside world answers to the calls [ensureHostKey] makes. *)
Record KeyStoreEnv := {
  mkdir_keyDir : Result unit;          (* fsp.mkdir(dir, { recursive: true }) *)
  readFile_key : Result (list byte);   (* fsp.readFile(keyPath) *)
  generateKeyPairSync : list byte;     (* the fresh privateKey *)
  writeFile_key : Result unit          (* fsp.writeFile(keyPath, privateKey, ...) *)
}.

(** [ensureHostKey(keyPath)]: a failed [mkdir] rejects; a failed read, for
    whatever reason, is caught and answered by generating and persisting a
    fresh key; a failed write rejects. *)
Definition ensureHostKey (env : KeyStoreEnv) : Result (list byte) :=
  match mkdir_keyDir env with
  | Err e => Err e
  | Ok _ =>
      match readFile_key env with
      | Ok key => Ok key
      | Err _ =>
          let privateKey := generateKeyPairSync env in
          match writeFile_key env with
          | Err e => Err e
          | Ok _ => Ok privateKey
          end
      end
  end.

(** ** Start-up singleton *)

(** What the outside world answers during one start attempt. *)
Record StartEnv := {
  keyStore : KeyStoreEnv;
  mkdir_rootDir : Result unit;     (* fsp.mkdir(config.rootDir, ...) *)
  new_Server : Result unit;        (* the ssh2 Server constructor *)
  server_listen : Result unit      (* server.listen returning or throwing *)
}.

Inductive PromiseState :=
| Pending
| Fulfilled (server : nat)
| Rejected (e : Error).

(** Where a constructed server stands.  [Abandoned]: [listen] threw, so the
    start attempt dropped the server before registering any handler. *)
Inductive ServerState :=
| ListenPending
| Listening
| ListenFailed
| Closed
| Abandoned.

Record ServerInfo := {
  hostKey : list byte;
  state : ServerState
}.

(** The two module-level variables, and the promise and server objects
    they can point to (an object's identity is its position). *)
Record Lifecycle := {
  serverInstance : option nat;
  startingPromise : option nat;
  promises : list PromiseState;
  servers : list ServerInfo;
  bindAttempts : nat     (* calls of server.listen that returned *)
}.

Definition initial : Lifecycle :=
  {| serverInstance := None; startingPromise := None;
     promises := []; servers := []; bindAttempts := 0 |}.

(** What [startMockSftpServer] hands back before the [async] wrapper turns
    it into the caller's own promise: the running instance, or the promise
    of the start in flight. *)
Inductive CallResult :=
| ReturnsInstance (s : nat)
| ReturnsPromise (p : nat).

(** The synchronous part of [startMockSftpServer]: the two early returns,
    else a new attempt whose promise becomes [startingPromise]. *)
Definition startMockSftpServer (l : Lifecycle) : CallResult * Lifecycle :=
  match serverInstance l with
  | Some s => (ReturnsInstance s, l)
  | None =>
      match startingPromise l with
      | Some p => (ReturnsPromise p, l)
      | None =>
          let p := length (promises l) in
          (ReturnsPromise p,
           {| serverInstance := None;
              startingPromise := Some p;
              promises := promises l ++ [Pending];
              servers := servers l;
              bindAttempts := bindAttempts l |})
      end
  end.

(** The body of the attempt up to [new Server]: the host key it got. *)
Definition prepare (env : StartEnv) : Result (list byte) :=
  match ensureHostKey (keyStore env) with
  | Err e => Err e
  | Ok key =>
      match mkdir_rootDir env with
      | Err e => Err e
      | Ok _ =>
          match new_Server env with
          | Err e => Err e
          | Ok _ => Ok key
          end
      end
  end.

(** The asynchronous body of attempt [p] running to its end.  On an
    exception the [.catch] handler clears [startingPromise] and the
    promise is rejected; otherwise [listen] has been called and the
    promise is fulfilled with the new server. *)
Definition attempt_completes (p : nat) (env : StartEnv) (l : Lifecycle)
    : Lifecycle :=
  match promises l !! p with
  | Some Pending =>
      match prepare env with
      | Err e =>
          {| serverInstance := serverInstance l;
             startingPromise := None;
             promises := <[p := Rejected e]> (promises l);
             servers := servers l;
             bindAttempts := bindAttempts l |}
      | Ok key =>
          match server_listen env with
          | Err e =>
              {| serverInstance := serverInstance l;
                 startingPromise := None;
                 promises := <[p := Rejected e]> (promises l);
                 servers := servers l ++ [{| hostKey := key; state := Abandoned |}];
                 bindAttempts := bindAttempts l |}
          | Ok _ =>
              {| serverInstance := serverInstance l;
                 startingPromise := startingPromise l;
                 promises := <[p := Fulfilled (length (servers l))]> (promises l);
                 servers := servers l ++ [{| hostKey := key; state := ListenPending |}];
                 bindAttempts := S (bindAttempts l) |}
          end
      end
  | _ => l
  end.

Definition set_state (s : nat) (x : ServerState) (srvs : list ServerInfo)
    : list ServerInfo :=
  match srvs !! s with
  | Some info => <[s := {| hostKey := hostKey info; state := x |}]> srvs
  | None => srvs
  end.

Definition state_of (l : Lifecycle) (s : nat) : option ServerState :=
  state <$> servers l !! s.

(** The callback given to [server.listen]: the socket is bound. *)
Definition listen_callback (s : nat) (l : Lifecycle) : Lifecycle :=
  match state_of l s with
  | Some ListenPending =>
      {| serverInstance := Some s;
         startingPromise := startingPromise l;
         promises := promises l;
         servers := set_state s Listening (servers l);
         bindAttempts := bindAttempts l |}
  | _ => l
  end.

(** [server.on('error', ...)] for a failed bind: logged, nothing else. *)
Definition listen_error (s : nat) (l : Lifecycle) : Lifecycle :=
  match state_of l s with
  | Some ListenPending =>
      {| serverInstance := serverInstance l;
         startingPromise := startingPromise l;
         promises := promises l;
         servers := set_state s ListenFailed (servers l);
         bindAttempts := bindAttempts l |}
  | _ => l
  end.

(** [server.on('close', ...)]: both variables are cleared.  A server
    emits it once; an abandoned server has no handler for it. *)
Definition close_event (s : nat) (l : Lifecycle) : Lifecycle :=
  match state_of l s with
  | Some ListenPending | Some Listening | Some ListenFailed =>
      {| serverInstance := None;
         startingPromise := None;
         promises := promises l;
         servers := set_state s Closed (servers l);
         bindAttempts := bindAttempts l |}
  | _ => l
  end.

(** One turn of the event loop that touches the start-up state. *)
Inductive LifecycleEvent :=
| Call
| AttemptCompletes (p : nat) (env : StartEnv)
| ListenCallback (s : nat)
| ListenError (s : nat)
| CloseEvent (s : nat).

Definition lifecycle_step (l : Lifecycle) (ev : LifecycleEvent)
    : option CallResult * Lifecycle :=
  match ev with
  | Call => let '(r, l') := startMockSftpServer l in (Some r, l')
  | AttemptCompletes p env => (None, attempt_completes p env l)
  | ListenCallback s => (None, listen_callback s l)
  | ListenError s => (None, listen_error s l)
  | CloseEvent s => (None, close_event s l)
  end.

Fixpoint lifecycle_run (l : Lifecycle) (evs : list LifecycleEvent)
    : list CallResult * Lifecycle :=
  match evs with
  | [] => ([], l)
  | ev :: rest =>
      let '(r, l') := lifecycle_step l ev in
      let '(rs, l'') := lifecycle_run l' rest in
      (match r with Some r' => r' :: rs | None => rs end, l'')
  end.

Definition is_close (ev : LifecycleEvent) : bool :=
  match ev with CloseEvent _ => true | _ => false end.

Definition is_live (info : ServerInfo) : bool :=
  match state info with
  | ListenPending | Listening => true
  | _ => false
  end.

(** Server [s] has its socket bound or being bound. *)
Definition live (l : Lifecycle) (s : nat) : Prop :=
  exists info, servers l !! s = Some info /\ is_live info = true.

(** The states in which a server's 'close' handler is registered and has
    not run. *)
Definition open_state (x : ServerState) : bool :=
  match x with
  | ListenPending | Listening | ListenFailed => true
  | Closed | Abandoned => false
  end.

(** The server a caller ends up with, if its result has settled on one. *)
Definition resolves_to (l : Lifecycle) (r : CallResult) : option nat :=
  match r with
  | ReturnsInstance s => Some s
  | ReturnsPromise p =>
      match promises l !! p with
      | Some (Fulfilled s) => Some s
      | _ => None
      end
  end.

(** ** Client-side sequences the properties speak about *)

(** A chunked download: READ at offsets [offset], [offset + L], ... until
    the end-of-file status; the chunks in order, or [None] when a READ
    gets no reply or one that is neither data nor end-of-file, or when
    [fuel] requests were not enough. *)
Fixpoint read_chunks (fuel : nat) (handle : list byte) (offset L : Z) (st : St)
    : option (list byte) :=
  match fuel with
  | O => None
  | S fuel' =>
      match on_READ handle offset L st with
      | (Ok (DataReply data), st') =>
          app data <$> read_chunks fuel' handle (offset + L) L st'
      | (Ok (Status STATUS_CODE.EOF), _) => Some []
      | _ => None
      end
  end.




(** The handles issued among some replies, in order. *)
Definition reply_handles (replies : list Reply) : list (list byte) :=
  flat_map (fun r => match r with HandleReply h => [h] | _ => [] end) replies.

(** ** Well-formed sessions *)

(** [key] is the table key of a handle the session has issued. *)
Definition issued (s : Session) (key : string) : Prop :=
  exists c h, 0 <= c < handleCount s /\ writeUInt32BE c = Ok h
              /\ key = handleKey h.

(** What every session reachable from [new_session] satisfies: the keys in
    both tables were issued by this session, and no key is in both. *)
Record session_inv (s : Session) : Prop := {
  inv_count : 0 <= handleCount s;
  inv_files : forall key fd, openFiles s !! key = Some fd -> issued s key;
  inv_dirs : forall key d, openDirs s !! key = Some d -> issued s key;
  inv_disjoint : forall key,
      openFiles s !! key = None \/ openDirs s !! key = None
}.

(** [key] names no open handle, and no handle issued later can take it. *)
Definition retired (s : Session) (key : string) : Prop :=
  openFiles s !! key = None /\ openDirs s !! key = None /\ issued s key.

(** How one request can change the session: not at all, or in one of the
    ways the handlers write to the closure variables. *)
Inductive session_step (s : Session) : Session -> Prop :=
| step_same : session_step s s
| step_bump :
    session_step s {| openFiles := openFiles s;
                      openDirs := openDirs s;
                      handleCount := js_succ (handleCount s) |}
| step_open_file h fd :
    writeUInt32BE (handleCount s) = Ok h ->
    session_step s {| openFiles := <[handleKey h := fd]> (openFiles s);
                      openDirs := openDirs s;
                      handleCount := js_succ (handleCount s) |}
| step_open_dir h d :
    writeUInt32BE (handleCount s) = Ok h ->
    session_step s {| openFiles := openFiles s;
                      openDirs := <[handleKey h := d]> (openDirs s);
                      handleCount := js_succ (handleCount s) |}
| step_advance key d d' :
    openDirs s !! key = Some d ->
    session_step s {| openFiles := openFiles s;
                      openDirs := <[key := d']> (openDirs s);
                      handleCount := handleCount s |}
| step_close_file key fd :
    openFiles s !! key = Some fd ->
    session_step s {| openFiles := delete key (openFiles s);
                      openDirs := openDirs s;
                      handleCount := handleCount s |}
| step_close_dir key d :
    openDirs s !! key = Some d ->
    session_step s {| openFiles := openFiles s;
                      openDirs := delete key (openDirs s);
                      handleCount := handleCount s |}.

(** ** A small concrete machine used in examples

    Root [/data] holding [loans.csv] (37 bytes) and [notes.txt], with a
    sibling directory [/data-secret] outside the root. *)

Definition file_stats (n : Z) : Stats :=
  {| st_mode := 33188; st_uid := 1000; st_gid := 1000; st_size := n;
     st_atimeMs := 1700000000123; st_mtimeMs := 1700000000456;
     st_isDirectory := false |}.

Definition dir_stats : Stats :=
  {| st_mode := 16877; st_uid := 1000; st_gid := 1000; st_size := 4096;
     st_atimeMs := 1700000000123; st_mtimeMs := 1700000000456;
     st_isDirectory := true |}.

Definition loans_csv : list byte :=
  list_byte_of_string "id,amount,rate
1,1000,3.5
2,2500,4.1
".

Definition demo_world : World :=
  {| nodes :=
       <["/data" := NDir dir_stats ["loans.csv"; "notes.txt"]]>
       (<["/data/loans.csv" := NFile (file_stats 37) loans_csv]>
       (<["/data/notes.txt" := NFile (file_stats 2) [x68; x69]]>
       (<["/data-secret" := NDir dir_stats ["x"]]>
       (<["/data-secret/x" := NFile (file_stats 1) [x21]]> ∅))));
     fds := ∅;
     next_fd := 3 |}.

(** The same machine after [loans.csv] has been removed. *)
Definition demo_world_removed : World :=
  {| nodes := delete "/data/loans.csv" (nodes demo_world);
     fds := fds demo_world;
     next_fd := next_fd demo_world |}.

Definition demo_config : MockSftpConfig :=
  {| port := 2222; host := "0.0.0.0"; username := "andbank";
     password := "sftp-test"; rootDir := "/data";
     keyPath := "/srv/.mock-sftp/host_rsa_key" |}.

Definition demo_cwd : string := "/srv".

(** The first handle a session issues. *)
Definition handle0 : list byte := [x00; x00; x00; x00].

(** A first start on a machine whose key file exists but cannot be read
    (write-only for its owner): [readFile] fails with EACCES, [writeFile]
    succeeds. *)
Definition fresh_key : list byte := [x4e; x45; x57].

Definition unreadable_key_store : KeyStoreEnv :=
  {| mkdir_keyDir := Ok tt;
     readFile_key := Err (FsError EACCES);
     generateKeyPairSync := fresh_key;
     writeFile_key := Ok tt |}.

Definition unreadable_key_start : StartEnv :=
  {| keyStore := unreadable_key_store;
     mkdir_rootDir := Ok tt;
     new_Server := Ok tt;
     server_listen := Ok tt |}.

(** A start on a machine where the key can be neither read nor written. *)
Definition readonly_key_start : StartEnv :=
  {| keyStore := {| mkdir_keyDir := Ok tt;
                    readFile_key := Err (FsError ENOENT);
                    generateKeyPairSync := fresh_key;
                    writeFile_key := Err (FsError EACCES) |};
     mkdir_rootDir := Ok tt;
     new_Server := Ok tt;
     server_listen := Ok tt |}.

(** ** Well-formed start-up states *)

(** What every state reachable from [initial] satisfies: an attempt in
    flight is the one [startingPromise] names; a server whose 'close'
    handler can still run is the one the promise in [startingPromise] was
    fulfilled with; [serverInstance] is a listening server. *)
Record lifecycle_inv (l : Lifecycle) : Prop := {
  linv_pending : forall p,
      promises l !! p = Some Pending -> startingPromise l = Some p;
  linv_open : forall s x,
      state_of l s = Some x -> open_state x = true ->
      exists p, startingPromise l = Some p
                /\ promises l !! p = Some (Fulfilled s);
  linv_instance : forall s,
      serverInstance l = Some s -> state_of l s = Some Listening
}.

(** What holds in addition as long as no server has been closed: a
    fulfilled promise is the one in [startingPromise], and [listen] has
    been called at most once, for that promise. *)
Record started_once (l : Lifecycle) : Prop := {
  once_fulfilled : forall p s,
      promises l !! p = Some (Fulfilled s) -> startingPromise l = Some p;
  once_attempts :
      bindAttempts l = 0%nat
      \/ (bindAttempts l = 1%nat
          /\ exists p s, startingPromise l = Some p
                         /\ promises l !! p = Some (Fulfilled s))
}.

(** ** Path segments *)

Fixpoint hasSeparator (s : string) : bool :=
  match s with
  | EmptyString => false
  | String c s' => Ascii.eqb c "/" || hasSeparator s'
  end.

(** A segment that names something: not empty, not "." or "..", and
    without a separator inside. *)
Definition cleanSegment (seg : string) : bool :=
  negb (String.eqb seg "") && negb (String.eqb seg ".")
  && negb (String.eqb seg "..") && negb (hasSeparator seg).

(** The segments of a request that [normalizeString] does not drop. *)
Definition requestSegments (requestPath : string) : list string :=
  List.filter (fun seg => negb (String.eqb seg "" || String.eqb seg "."))
              (Path.split requestPath).

(** ** The sync service's scheduler (the entry point that calls [main])

    [main()] itself, which fetches and writes to Notion, is taken as a call
    that some time later resolves or rejects. *)
















(** ** Grouping loans by bank (sync-worker/index.ts) *)

Section Loans.

(** JavaScript numbers, which grouping never looks at. *)
Variable number : Type.
(** [String.prototype.toLowerCase]. *)
Variable toLowerCase : string -> string.

Record LoanRecord := {
  financingInstitution : string;
  entity : string;
  creditLineAmount : number;
  availableCredit : number;
  interestRate : number
}.

(** One turn of the loop over a [Map] kept in insertion order:
    [if (!grouped.has(bank)) grouped.set(bank, [])], then
    [grouped.get(bank).push(loan)]. *)
Fixpoint pushLoan (grouped : list (string * list LoanRecord))
    (bank : string) (loan : LoanRecord) : list (string * list LoanRecord) :=
  match grouped with
  | [] => [(bank, [loan])]
  | (b, loans) :: rest =>
      if String.eqb b bank then (b, loans ++ [loan]) :: rest
      else (b, loans) :: pushLoan rest bank loan
  end.

Definition bankOf (loan : LoanRecord) : string :=
  toLowerCase (financingInstitution loan).

(** [groupLoansByBank(loans)]. *)
Definition groupLoansByBank (loans : list LoanRecord)
    : list (string * list LoanRecord) :=
  fold_left (fun grouped loan => pushLoan grouped (bankOf loan) loan) loans [].

End Loans.

Arguments financingInstitution {number} _.
Arguments bankOf {number} toLowerCase loan.
Arguments pushLoan {number} grouped bank loan.
Arguments groupLoansByBank {number} toLowerCase loans.

(** The banks of some loans, each once, in order of first appearance. *)
Definition distinctBanks {number} (toLowerCase : string -> string)
    (loans : list (LoanRecord number)) : list string :=
  fold_left (fun banks loan =>
               if decide (bankOf toLowerCase loan ∈ banks) then banks
               else banks ++ [bankOf toLowerCase loan])
            loans [].

(** The loans of one bank, in the order they came. *)
Definition loansOf {number} (toLowerCase : string -> string)
    (loans : list (LoanRecord number)) (bank : string)
    : list (LoanRecord number) :=
  filter (fun loan => bankOf toLowerCase loan = bank) loans.

(** ** Fetching the CSV over HTTP with retries (sync-worker/fetcher.ts) *)

Definition maxRetries : nat := 3.
Definition retryDelayMs : Z := 5000.

(** What one turn of the retry loop meets.  For an exception thrown by
    [fetch], [response.text()] or [parseLoanCsv], the two tests the
    [catch] block makes on its message are recorded. *)
Inductive AttemptOutcome (A : Type) :=
| Http429
| HttpNotOk
| Thrown (mentionsFetch mentions429 : bool)
| Parsed (loans : A).
Arguments Http429 {A}.
Arguments HttpNotOk {A}.
Arguments Thrown {A} mentionsFetch mentions429.
Arguments Parsed {A} loans.

Record FetchRun (A : Type) := {
  fetched : option A;        (* the loans returned, or None when it throws *)
  requests : nat;            (* calls of fetch(this.csvUrl) *)
  sleeps : list Z            (* the setTimeout delays awaited, in order *)
}.
Arguments fetched {A} _.
Arguments requests {A} _.
Arguments sleeps {A} _.

(** [this.retryDelayMs * Math.pow(2, attempt)]. *)
Definition retryDelay (attempt : nat) : Z := retryDelayMs * 2 ^ Z.of_nat attempt.

Definition one_more {A} (sleep : list Z) (rest : FetchRun A) : FetchRun A :=
  {| fetched := fetched rest;
     requests := S (requests rest);
     sleeps := sleep ++ sleeps rest |}.

Definition gives_up {A} : FetchRun A :=
  {| fetched := None; requests := 1; sleeps := [] |}.

(** The [for] loop of [HttpCsvFetcher.fetch] from turn [attempt] on, with
    [remaining = maxRetries + 1 - attempt] turns left.  A status that is
    not ok throws 'Failed to fetch CSV: ...', a message that mentions
    'fetch'; the 429 of the last turn throws 'Rate limited (429) ...'. *)
Fixpoint fetchLoop {A} (outcomes : nat -> AttemptOutcome A)
    (remaining attempt : nat) : FetchRun A :=
  match remaining with
  | O => {| fetched := None; requests := 0; sleeps := [] |}
  | S remaining' =>
      let continue sleep :=
        one_more sleep (fetchLoop outcomes remaining' (S attempt)) in
      let caught (mentionsFetch mentions429 : bool) :=
        if (attempt <? maxRetries)%nat && mentionsFetch
        then continue [retryDelay attempt]
        else if (attempt =? maxRetries)%nat
                || (negb mentions429 && negb mentionsFetch)
             then gives_up
             else continue [] in
      match outcomes attempt with
      | Parsed loans => {| fetched := Some loans; requests := 1; sleeps := [] |}
      | Http429 =>
          if (attempt <? maxRetries)%nat then continue [retryDelay attempt]
          else caught false true
      | HttpNotOk => caught true false
      | Thrown mentionsFetch mentions429 => caught mentionsFetch mentions429
      end
  end.

(** [HttpCsvFetcher.fetch()]. *)
Definition httpCsvFetch {A} (outcomes : nat -> AttemptOutcome A) : FetchRun A :=
  fetchLoop outcomes (S maxRetries) 0.

(** The failures the loop answers by waiting and trying again, while
    turns are left: a 429, any other status that is not ok, and an
    exception whose message mentions 'fetch'. *)
Definition retried {A} (o : AttemptOutcome A) : bool :=
  match o with
  | Http429 | HttpNotOk | Thrown true _ => true
  | Thrown false _ | Parsed _ => false
  end.

(** Sample loans, with a lower-casing that covers the letters A to Z. *)
Definition lowerAscii (c : ascii) : ascii :=
  let n := nat_of_ascii c in
  if ((65 <=? n) && (n <=? 90))%nat then ascii_of_nat (n + 32) else c.

Fixpoint lowerLatin (s : string) : string :=
  match s with
  | EmptyString => EmptyString
  | String c s' => String (lowerAscii c) (lowerLatin s')
  end.

Definition demo_loan (bank entity' : string) (amount : Z) : LoanRecord Z :=
  {| financingInstitution := bank; entity := entity';
     creditLineAmount := amount; availableCredit := amount;
     interestRate := 3 |}.

Definition demo_loans : list (LoanRecord Z) :=
  [demo_loan "Andbank" "Aribau Ventures SL" 1200000;
   demo_loan "Caixa" "Oikos Builders SL" 850000;
   demo_loan "ANDBANK" "Esteban Almirall" 500000].

(** * Properties *)

(** ** Bytes and hexadecimal keys *)

Lemma Z_of_byte_range b : 0 <= Z_of_byte b < 256.
Proof.
  unfold Z_of_byte. pose proof (Byte.to_N_bounded b). lia.
Qed.

Lemma Z_of_byte_inj b1 b2 : Z_of_byte b1 = Z_of_byte b2 -> b1 = b2.
Proof.
  unfold Z_of_byte. intros H. apply N2Z.inj in H.
  pose proof (Byte.of_to_N b1) as H1. pose proof (Byte.of_to_N b2) as H2.
  rewrite H in H1. congruence.
Qed.

Lemma Z_of_byte_of_Z z : Z_of_byte (byte_of_Z z) = z mod 256.
Proof.
  unfold Z_of_byte, byte_of_Z.
  assert (Hland : Z.land z 255 = z mod 256) by (apply (Z.land_ones z 8); lia).
  rewrite Hland.
  pose proof (Z.mod_pos_bound z 256 ltac:(lia)) as Hb.
  destruct (Byte.of_N (Z.to_N (z mod 256))) as [b|] eqn:E.
  - apply Byte.to_of_N in E. rewrite E. lia.
  - exfalso. apply Byte.of_N_None_iff in E. lia.
Qed.

(** The sixteen digits are distinct: checked digit by digit. *)
Lemma hexDigit_inj n m :
  0 <= n < 16 -> 0 <= m < 16 -> hexDigit n = hexDigit m -> n = m.
Proof.
  intros Hn Hm.
  rewrite <- (Z2Nat.id n), <- (Z2Nat.id m) by lia.
  assert (Ha : (Z.to_nat n < 16)%nat) by lia.
  assert (Hb : (Z.to_nat m < 16)%nat) by lia.
  revert Ha Hb. generalize (Z.to_nat n) (Z.to_nat m). clear.
  intros a b Ha Hb.
  do 16 (destruct a as [|a];
         [do 16 (destruct b as [|b];
                 [intros H; vm_compute in H;
                  first [reflexivity | discriminate H] |]);
          lia |]).
  lia.
Qed.

Lemma handleKey_inj h1 : forall h2, handleKey h1 = handleKey h2 -> h1 = h2.
Proof.
  induction h1 as [|b1 h1 IH]; intros [|b2 h2] H; simpl in H;
    try discriminate; [reflexivity|].
  injection H as Hhi Hlo Hrest.
  pose proof (Z_of_byte_range b1) as R1. pose proof (Z_of_byte_range b2) as R2.
  assert (Hdiv : forall z, 0 <= z < 256 -> 0 <= z / 16 < 16).
  { intros z Hz. split; [apply Z.div_pos; lia | apply Z.div_lt_upper_bound; lia]. }
  apply hexDigit_inj in Hhi; [| by apply Hdiv | by apply Hdiv].
  apply hexDigit_inj in Hlo;
    [| apply Z.mod_pos_bound; lia | apply Z.mod_pos_bound; lia].
  f_equal; [| by apply IH].
  apply Z_of_byte_inj.
  rewrite (Z.div_mod (Z_of_byte b1) 16), (Z.div_mod (Z_of_byte b2) 16) by lia.
  congruence.
Qed.

Lemma writeUInt32BE_ok c h :
  writeUInt32BE c = Ok h -> 0 <= c <= 4294967295.
Proof.
  unfold writeUInt32BE. intros H.
  destruct (0 <=? c) eqn:E1; destruct (c <=? 4294967295) eqn:E2;
    simpl in H; try discriminate. lia.
Qed.

Lemma writeUInt32BE_in_range c :
  0 <= c <= 4294967295 -> exists h, writeUInt32BE c = Ok h.
Proof.
  intros Hc. unfold writeUInt32BE.
  destruct (0 <=? c) eqn:E1; destruct (c <=? 4294967295) eqn:E2;
    simpl; try lia; eauto.
Qed.

Lemma read_writeUInt32BE c h :
  writeUInt32BE c = Ok h -> readUInt32BE h = Some c.
Proof.
  intros H. pose proof (writeUInt32BE_ok _ _ H) as Hc.
  unfold writeUInt32BE in H.
  destruct ((0 <=? c) && (c <=? 4294967295)); [|discriminate].
  injection H as <-. unfold readUInt32BE.
  rewrite !Z_of_byte_of_Z, !Z.shiftr_div_pow2 by lia.
  f_equal. change (2 ^ 24) with 16777216. change (2 ^ 16) with 65536.
  change (2 ^ 8) with 256. Z.div_mod_to_equations. lia.
Qed.

Lemma writeUInt32BE_length c h : writeUInt32BE c = Ok h -> length h = 4%nat.
Proof.
  unfold writeUInt32BE.
  destruct ((0 <=? c) && (c <=? 4294967295)); [|discriminate].
  intros H. injection H as <-. reflexivity.
Qed.

(** Distinct counter values give distinct table keys. *)
Lemma key_inj c1 c2 h1 h2 :
  writeUInt32BE c1 = Ok h1 -> writeUInt32BE c2 = Ok h2 ->
  handleKey h1 = handleKey h2 -> c1 = c2.
Proof.
  intros H1 H2 Hk. apply handleKey_inj in Hk. subst h2.
  apply read_writeUInt32BE in H1. apply read_writeUInt32BE in H2. congruence.
Qed.

(** ** The handle tables over a session's lifetime *)

Ltac unfold_M :=
  unfold mbind, M_bind, mret, M_ret, try_catch, lift, get_sess, put_sess,
    fs_call in *.

Ltac unfold_handlers :=
  unfold dispatch, on_REALPATH, on_STAT, on_LSTAT, on_OPENDIR, on_READDIR,
    on_OPEN, on_READ, on_CLOSE, createHandle, openFiles_set,
    openFiles_delete, openDirs_set, openDirs_delete, fsp_stat, fsp_lstat,
    fsp_readdir, fsp_open, new_FileHandle, fs_read, fs_close in *.

Lemma js_succ_ge c : c <= js_succ c.
Proof. unfold js_succ. destruct (c <? 9007199254740992); lia. Qed.

Lemma js_succ_in_range c h : writeUInt32BE c = Ok h -> js_succ c = c + 1.
Proof.
  intros H. apply writeUInt32BE_ok in H. unfold js_succ.
  destruct (c <? 9007199254740992) eqn:E; lia.
Qed.

Lemma issued_mono s s' key :
  handleCount s <= handleCount s' -> issued s key -> issued s' key.
Proof.
  intros Hle (c & h & Hc & Hw & Hk). exists c, h. repeat split; try done; lia.
Qed.

Lemma issued_fresh s h :
  0 <= handleCount s -> writeUInt32BE (handleCount s) = Ok h ->
  issued {| openFiles := openFiles s; openDirs := openDirs s;
            handleCount := js_succ (handleCount s) |} (handleKey h).
Proof.
  intros H0 Hw. exists (handleCount s), h. simpl.
  rewrite (js_succ_in_range _ _ Hw). repeat split; try done; lia.
Qed.

(** The key of the handle about to be created is not one issued before. *)
Lemma fresh_key_not_issued s h :
  writeUInt32BE (handleCount s) = Ok h -> ~ issued s (handleKey h).
Proof.
  intros Hw (c & h' & Hc & Hw' & Hk).
  pose proof (key_inj _ _ _ _ Hw Hw' Hk). lia.
Qed.

Lemma handleCount_step s s' : session_step s s' -> handleCount s <= handleCount s'.
Proof. destruct 1; simpl; try lia; apply js_succ_ge. Qed.

Lemma session_step_inv s s' :
  session_inv s -> session_step s s' -> session_inv s'.
Proof.
  intros [Hc Hf Hd Hx] Hstep.
  pose proof (js_succ_ge (handleCount s)) as Hge.
  destruct Hstep as [| |h fd Hw|h d Hw|key d d' Hk|key fd Hk|key d Hk];
    constructor; simpl; try lia; try done.
  - intros key fd Hl. eapply issued_mono; [|by eapply Hf]. done.
  - intros key d Hl. eapply issued_mono; [|by eapply Hd]. done.
  - intros key fd' Hl. destruct (decide (handleKey h = key)) as [<-|Hne].
    + by apply (issued_fresh s).
    + rewrite lookup_insert_ne in Hl by done.
      eapply issued_mono; [|by eapply Hf]. done.
  - intros key d Hl. eapply issued_mono; [|by eapply Hd]. done.
  - intros key. destruct (decide (handleKey h = key)) as [<-|Hne].
    + right. destruct (openDirs s !! handleKey h) eqn:E; [|done].
      exfalso. eapply fresh_key_not_issued; [exact Hw|by eapply Hd].
    + rewrite lookup_insert_ne by done. apply Hx.
  - intros key fd Hl. eapply issued_mono; [|by eapply Hf]. done.
  - intros key d' Hl. destruct (decide (handleKey h = key)) as [<-|Hne].
    + by apply (issued_fresh s).
    + rewrite lookup_insert_ne in Hl by done.
      eapply issued_mono; [|by eapply Hd]. done.
  - intros key. destruct (decide (handleKey h = key)) as [<-|Hne].
    + left. destruct (openFiles s !! handleKey h) eqn:E; [|done].
      exfalso. eapply fresh_key_not_issued; [exact Hw|by eapply Hf].
    + rewrite lookup_insert_ne by done. apply Hx.
  - intros key' d'' Hl. destruct (decide (key = key')) as [<-|Hne].
    + by eapply Hd.
    + rewrite lookup_insert_ne in Hl by done. by eapply Hd.
  - intros key'. destruct (decide (key = key')) as [<-|Hne].
    + left. destruct (Hx key) as [?|E]; [done|congruence].
    + rewrite lookup_insert_ne by done. apply Hx.
  - intros key' fd' Hl. apply lookup_delete_Some in Hl as [_ Hl]. by eapply Hf.
  - intros key'. destruct (Hx key') as [E|E]; [left|by right].
    destruct (decide (key = key')) as [<-|Hne];
      [apply lookup_delete_eq | by rewrite lookup_delete_ne].
  - intros key' d' Hl. apply lookup_delete_Some in Hl as [_ Hl]. by eapply Hd.
  - intros key'. destruct (Hx key') as [E|E]; [by left|right].
    destruct (decide (key = key')) as [<-|Hne];
      [apply lookup_delete_eq | by rewrite lookup_delete_ne].
Qed.

(** A retired key stays retired whatever the session does next. *)
Lemma session_step_retired s s' key :
  session_step s s' -> retired s key -> retired s' key.
Proof.
  intros Hstep (Hf & Hd & Hi).
  pose proof (handleCount_step _ _ Hstep) as Hle.
  split; [|split]; [| |by eapply issued_mono].
  - destruct Hstep as [| |h fd Hw|h d Hw|key' d d' Hk|key' fd Hk|key' d Hk];
      simpl; try done.
    + rewrite lookup_insert_ne; [done|]. intros <-.
      by eapply fresh_key_not_issued.
    + destruct (decide (key' = key)) as [<-|Hne];
        [apply lookup_delete_eq | by rewrite lookup_delete_ne].
  - destruct Hstep as [| |h fd Hw|h d Hw|key' d d' Hk|key' fd Hk|key' d Hk];
      simpl; try done.
    + rewrite lookup_insert_ne; [done|]. intros <-.
      by eapply fresh_key_not_issued.
    + rewrite lookup_insert_ne; [done|]. congruence.
    + destruct (decide (key' = key)) as [<-|Hne];
        [apply lookup_delete_eq | by rewrite lookup_delete_ne].
Qed.

(** Every handler changes the session in one of the listed ways. *)
Lemma dispatch_step config cwd r st :
  session_step (sess st) (sess (snd (dispatch config cwd r st))).
Proof.
  destruct r; unfold_handlers; unfold_M; simpl;
    repeat case_match; simplify_eq; simpl;
    eauto using session_step.
Qed.

(** Every handler but READ sends its reply frame, whatever happens: none
    of them lets an exception escape. *)
Lemma dispatch_replies config cwd r st :
  (forall handle offset length, r <> READ handle offset length) ->
  exists reply, fst (dispatch config cwd r st) = Ok reply.
Proof.
  intros Hr. destruct r; try (by destruct (Hr handle offset length));
    unfold_handlers; unfold_M; simpl;
    repeat case_match; simplify_eq; simpl; eauto.
Qed.

Lemma toInt32_small z : -2147483648 <= z < 2147483648 -> toInt32 z = z.
Proof. intros Hz. unfold toInt32. Z.div_mod_to_equations. lia. Qed.

Lemma toInt32_high z :
  2147483648 <= z < 4294967296 -> toInt32 z = z - 4294967296.
Proof. intros Hz. unfold toInt32. Z.div_mod_to_equations. lia. Qed.

(** READ on a known file handle sends nothing, and does nothing, when the
    length is one [fs.read] takes for negative or the offset is past the
    safe integers. *)
Lemma read_throws handle fd offset L st :
  openFiles (sess st) !! handleKey handle = Some fd ->
  2147483648 <= L < 4294967296
  \/ (0 < L < 2147483648 /\ MAX_SAFE_INTEGER < offset) ->
  on_READ handle offset L st = (Err RangeError, st).
Proof.
  intros Hf Hbad. unfold on_READ, fs_read, Buffer_alloc, MAX_LENGTH. unfold_M.
  simpl. rewrite Hf.
  destruct Hbad as [HL | [HL Hoff]].
  - rewrite (toInt32_high L HL).
    destruct (0 <=? L) eqn:E1; [|lia]. destruct (L <=? 9007199254740991) eqn:E2;
      [|lia]. simpl.
    destruct (L - 4294967296 =? 0) eqn:E3; [lia|].
    destruct (L - 4294967296 <? 0) eqn:E4; [done | lia].
  - rewrite (toInt32_small L) by lia.
    destruct (0 <=? L) eqn:E1; [|lia]. destruct (L <=? 9007199254740991) eqn:E2;
      [|lia]. simpl.
    destruct (L =? 0) eqn:E3; [lia|]. destruct (L <? 0) eqn:E4; [lia|].
    destruct (MAX_SAFE_INTEGER <? offset) eqn:E5; [|lia].
    by rewrite orb_true_r.
Qed.

(** A collection leaves the session, the files and the call record
    alone. *)
Lemma finalize_keeps i st :
  sess (finalize i st) = sess st
  /\ nodes (world (finalize i st)) = nodes (world st)
  /\ calls (finalize i st) = calls st.
Proof.
  unfold finalize, world_close.
  destruct (fileHandles st !! i) as [fd|]; simpl; [|done].
  by destruct (fds (world st) !! fd).
Qed.

Lemma apply_event_step config cwd st ev :
  session_step (sess st) (sess (snd (apply_event config cwd st ev))).
Proof.
  destruct ev as [r|w|i]; simpl; [|constructor|];
    [|destruct (finalize_keeps i st) as [-> _]; constructor].
  unfold handle_request. pose proof (dispatch_step config cwd r st) as H.
  destruct (dispatch config cwd r st) as [[reply|e] st']; exact H.
Qed.

Lemma run_cons config cwd st ev evs :
  run config cwd st (ev :: evs) =
    (match fst (apply_event config cwd st ev) with
     | Some r => [r]
     | None => []
     end ++ fst (run config cwd (snd (apply_event config cwd st ev)) evs),
     snd (run config cwd (snd (apply_event config cwd st ev)) evs)).
Proof.
  cbn [run]. destruct (apply_event config cwd st ev) as [reply st'].
  cbn [fst snd]. destruct (run config cwd st' evs) as [replies st''].
  by destruct reply.
Qed.

Lemma run_inv config cwd evs : forall st,
  session_inv (sess st) -> session_inv (sess (snd (run config cwd st evs))).
Proof.
  induction evs as [|ev evs IH]; intros st Hinv; [done|].
  rewrite run_cons. simpl. apply IH.
  eapply session_step_inv; [exact Hinv | apply apply_event_step].
Qed.

Lemma run_retired config cwd key evs : forall st,
  retired (sess st) key -> retired (sess (snd (run config cwd st evs))) key.
Proof.
  induction evs as [|ev evs IH]; intros st Hret; [done|].
  rewrite run_cons. simpl. apply IH.
  eapply session_step_retired; [apply apply_event_step | exact Hret].
Qed.

Lemma new_session_inv : session_inv new_session.
Proof. constructor; simpl; try done; try lia. by left. Qed.

Lemma reachable_inv config cwd w evs :
  session_inv (sess (snd (run config cwd (start w) evs))).
Proof. apply run_inv, new_session_inv. Qed.

(** Operations on a key that is in neither table are refused, and touch
    neither the session nor the filesystem. *)
Lemma unknown_handle_refused handle st :
  openFiles (sess st) !! handleKey handle = None ->
  openDirs (sess st) !! handleKey handle = None ->
  (forall offset length,
      on_READ handle offset length st = (Ok (Status STATUS_CODE.FAILURE), st))
  /\ on_READDIR handle st = (Ok (Status STATUS_CODE.FAILURE), st)
  /\ on_CLOSE handle st = (Ok (Status STATUS_CODE.FAILURE), st).
Proof.
  intros Hf Hd. unfold on_READ, on_READDIR, on_CLOSE. unfold_M. simpl.
  rewrite Hf, Hd. done.
Qed.

(** Closing a known file handle: the key leaves the table first, then the
    descriptor is closed, and the reply follows the outcome of that. *)
Lemma close_file_effect handle fd st :
  openFiles (sess st) !! handleKey handle = Some fd ->
  on_CLOSE handle st =
    try_catch (fs_close fd;; mret (Status STATUS_CODE.OK))
              (fun _ => mret (Status STATUS_CODE.FAILURE))
              {| sess := {| openFiles := delete (handleKey handle)
                                                (openFiles (sess st));
                            openDirs := openDirs (sess st);
                            handleCount := handleCount (sess st) |};
                 world := world st;
                 calls := calls st;
                 fileHandles := fileHandles st |}.
Proof.
  intros Hf. unfold on_CLOSE, openFiles_delete. unfold_M. simpl.
  by rewrite Hf.
Qed.

Lemma close_known_retires handle st :
  session_inv (sess st) ->
  is_Some (openFiles (sess st) !! handleKey handle)
    \/ is_Some (openDirs (sess st) !! handleKey handle) ->
  retired (sess (snd (on_CLOSE handle st))) (handleKey handle).
Proof.
  intros Hinv Hknown.
  assert (Hissued : issued (sess st) (handleKey handle)).
  { destruct Hknown as [[fd Hf]|[d Hd]];
      [by eapply inv_files | by eapply inv_dirs]. }
  pose proof (inv_disjoint _ Hinv (handleKey handle)) as Hx.
  unfold on_CLOSE, openFiles_delete, openDirs_delete, fs_close. unfold_M. simpl.
  destruct (openFiles (sess st) !! handleKey handle) as [fd|] eqn:Hf.
  - destruct Hx as [Hx|Hx]; [done|].
    destruct (world_close (world st) fd) as [[[]|e] w']; simpl;
      (split; [apply lookup_delete_eq | split; [exact Hx | exact Hissued]]).
  - destruct (openDirs (sess st) !! handleKey handle) as [d|] eqn:Hd; simpl.
    + split; [exact Hf | split; [apply lookup_delete_eq | exact Hissued]].
    + destruct Hknown as [[? ?]|[? ?]]; done.
Qed.

Lemma close_ok_known handle st :
  fst (on_CLOSE handle st) = Ok (Status STATUS_CODE.OK) ->
  is_Some (openFiles (sess st) !! handleKey handle)
    \/ is_Some (openDirs (sess st) !! handleKey handle).
Proof.
  unfold on_CLOSE, openFiles_delete, openDirs_delete, fs_close. unfold_M. simpl.
  destruct (openFiles (sess st) !! handleKey handle) as [fd|]; [by left; eauto|].
  destruct (openDirs (sess st) !! handleKey handle) as [d|]; [by right; eauto|].
  simpl. discriminate.
Qed.

(** C4. After a CLOSE of a handle has been acknowledged, whatever requests
    and filesystem changes follow in the session, a READ, a READDIR or
    another CLOSE naming that handle is answered with the failure status,
    and changes nothing. *)
Theorem closed_handle_stays_unknown config cwd w before handle after :
  let st1 := snd (run config cwd (start w) before) in
  fst (on_CLOSE handle st1) = Ok (Status STATUS_CODE.OK) ->
  let st2 := snd (run config cwd (snd (on_CLOSE handle st1)) after) in
  (forall offset length,
      on_READ handle offset length st2 = (Ok (Status STATUS_CODE.FAILURE), st2))
  /\ on_READDIR handle st2 = (Ok (Status STATUS_CODE.FAILURE), st2)
  /\ on_CLOSE handle st2 = (Ok (Status STATUS_CODE.FAILURE), st2).
Proof.
  intros st1 Hok st2.
  assert (Hret : retired (sess st2) (handleKey handle)).
  { apply run_retired, close_known_retires.
    - apply reachable_inv.
    - by apply close_ok_known. }
  destruct Hret as (Hf & Hd & _). by apply unknown_handle_refused.
Qed.

Lemma closed_handle_stays_unknown_witness :
  fst (on_CLOSE handle0
         (snd (run demo_config demo_cwd (start demo_world)
                   [Client (OPEN "/loans.csv" 1)])))
    = Ok (Status STATUS_CODE.OK)
  /\ fst (on_READ handle0 0 100
            (snd (run demo_config demo_cwd
                      (snd (on_CLOSE handle0
                              (snd (run demo_config demo_cwd (start demo_world)
                                        [Client (OPEN "/loans.csv" 1)]))))
                      [Client (OPENDIR "/"); Outside demo_world_removed])))
     = Ok (Status STATUS_CODE.FAILURE).
Proof.
  assert (H : fst (on_CLOSE handle0
                     (snd (run demo_config demo_cwd (start demo_world)
                               [Client (OPEN "/loans.csv" 1)])))
              = Ok (Status STATUS_CODE.OK)) by (vm_compute; reflexivity).
  split; [exact H|].
  destruct (closed_handle_stays_unknown demo_config demo_cwd demo_world
              [Client (OPEN "/loans.csv" 1)] handle0
              [Client (OPENDIR "/"); Outside demo_world_removed] H)
    as (Hread & _ & _).
  by rewrite Hread.
Defined.

(** C10. For a known file handle, CLOSE deletes the table entry and only
    then closes the descriptor: the descriptor is closed in a state that
    no longer has the key, the reply is OK or FAILURE as that close goes,
    the entry is gone in both cases, and a later CLOSE of the same handle
    is refused as unknown. *)
Theorem close_file_invalidates_first config cwd w before handle fd after :
  let st := snd (run config cwd (start w) before) in
  openFiles (sess st) !! handleKey handle = Some fd ->
  let st' := snd (on_CLOSE handle st) in
  on_CLOSE handle st =
    try_catch (fs_close fd;; mret (Status STATUS_CODE.OK))
              (fun _ => mret (Status STATUS_CODE.FAILURE))
              {| sess := {| openFiles := delete (handleKey handle)
                                                (openFiles (sess st));
                            openDirs := openDirs (sess st);
                            handleCount := handleCount (sess st) |};
                 world := world st;
                 calls := calls st;
                 fileHandles := fileHandles st |}
  /\ calls st' = calls st ++ [CallClose fd]
  /\ fst (on_CLOSE handle st) =
       Ok (Status (match fst (world_close (world st) fd) with
                   | Ok _ => STATUS_CODE.OK
                   | Err _ => STATUS_CODE.FAILURE
                   end))
  /\ openFiles (sess st') !! handleKey handle = None
  /\ (let st2 := snd (run config cwd st' after) in
      on_CLOSE handle st2 = (Ok (Status STATUS_CODE.FAILURE), st2)).
Proof.
  intros st Hf st'.
  assert (Hret : retired (sess st') (handleKey handle)).
  { apply close_known_retires; [apply reachable_inv | left; eauto]. }
  assert (Hagain : let st2 := snd (run config cwd st' after) in
            on_CLOSE handle st2 = (Ok (Status STATUS_CODE.FAILURE), st2)).
  { intros st2. pose proof (run_retired config cwd _ after _ Hret) as Hr.
    destruct Hr as (Hf2 & Hd2 & _). by apply unknown_handle_refused. }
  split; [by apply close_file_effect|].
  split; [|split; [|split; [by destruct Hret | exact Hagain]]].
  - subst st'. rewrite (close_file_effect _ _ _ Hf).
    unfold fs_close. unfold_M. simpl.
    by destruct (world_close (world st) fd) as [[[]|e] w'].
  - rewrite (close_file_effect _ _ _ Hf).
    unfold fs_close. unfold_M. simpl.
    by destruct (world_close (world st) fd) as [[[]|e] w'].
Qed.

(** The descriptor was closed behind the server's back: CLOSE replies
    FAILURE, and the handle is gone all the same. *)
Lemma close_file_invalidates_first_witness :
  let st := snd (run demo_config demo_cwd (start demo_world)
                     [Client (OPEN "/loans.csv" 1); Outside demo_world]) in
  openFiles (sess st) !! handleKey handle0 = Some 3
  /\ fst (on_CLOSE handle0 st) = Ok (Status STATUS_CODE.FAILURE)
  /\ openFiles (sess (snd (on_CLOSE handle0 st))) !! handleKey handle0 = None
  /\ fst (on_CLOSE handle0 (snd (on_CLOSE handle0 st)))
     = Ok (Status STATUS_CODE.FAILURE).
Proof.
  intros st.
  assert (H : openFiles (sess st) !! handleKey handle0 = Some 3)
    by (vm_compute; reflexivity).
  split; [exact H|].
  destruct (close_file_invalidates_first demo_config demo_cwd demo_world
              [Client (OPEN "/loans.csv" 1); Outside demo_world]
              handle0 3 [] H) as (_ & _ & Hreply & Hgone & Hagain).
  subst st. split; [rewrite Hreply; vm_compute; reflexivity|].
  split; [exact Hgone|].
  exact (f_equal fst Hagain).
Defined.

(** ** Handle identifiers *)

Lemma dispatch_handle config cwd r st h :
  fst (dispatch config cwd r st) = Ok (HandleReply h) ->
  writeUInt32BE (handleCount (sess st)) = Ok h
  /\ handleCount (sess (snd (dispatch config cwd r st)))
     = handleCount (sess st) + 1.
Proof.
  destruct r; unfold_handlers; unfold_M; simpl;
    repeat case_match; simplify_eq; simpl; intros Hreply; simplify_eq;
    (split; [done | by eapply js_succ_in_range]).
Qed.

Lemma apply_event_handles config cwd st ev :
  match fst (apply_event config cwd st ev) with
  | Some (HandleReply h) =>
      writeUInt32BE (handleCount (sess st)) = Ok h
      /\ handleCount (sess (snd (apply_event config cwd st ev)))
         = handleCount (sess st) + 1
  | _ => True
  end.
Proof.
  destruct ev as [r|w|i]; simpl; [|done|done].
  unfold handle_request.
  pose proof (dispatch_handle config cwd r st) as H.
  destruct (dispatch config cwd r st) as [[reply|e] st']; simpl in *; [|done].
  destruct reply; try done. by apply H.
Qed.

(** From any state on: the handles issued decode to counter values that
    start at the current counter and strictly increase. *)
Lemma run_handles config cwd evs : forall st,
  exists ids,
    Forall2 (fun h c => length h = 4%nat /\ readUInt32BE h = Some c)
            (reply_handles (fst (run config cwd st evs))) ids
    /\ StronglySorted Z.lt ids
    /\ Forall (fun c => handleCount (sess st) <= c) ids.
Proof.
  induction evs as [|ev evs IH]; intros st.
  { exists []. simpl. repeat constructor. }
  rewrite run_cons. cbn [fst].
  destruct (IH (snd (apply_event config cwd st ev))) as (ids & H2 & Hs & Hlow).
  pose proof (apply_event_handles config cwd st ev) as Hev.
  pose proof (handleCount_step _ _ (apply_event_step config cwd st ev)) as Hle.
  unfold reply_handles in *. rewrite flat_map_app.
  destruct (fst (apply_event config cwd st ev)) as [[code|a|h|entries|data]|];
    simpl;
    try (exists ids; repeat split; [exact H2 | exact Hs |];
         eapply Forall_impl; [exact Hlow | simpl; intros; lia]).
  destruct Hev as [Hw Hcount].
  exists (handleCount (sess st) :: ids). repeat split.
  - constructor; [|exact H2].
    split; [by eapply writeUInt32BE_length | by apply read_writeUInt32BE].
  - constructor; [exact Hs|].
    eapply Forall_impl; [exact Hlow | simpl; intros; lia].
  - constructor; [lia|].
    eapply Forall_impl; [exact Hlow | simpl; intros; lia].
Qed.

Lemma StronglySorted_lt_NoDup ids : StronglySorted Z.lt ids -> NoDup ids.
Proof.
  induction 1 as [|c ids Hs IH Hall]; constructor; [|exact IH].
  intros Hin. rewrite Forall_forall in Hall. specialize (Hall _ Hin). lia.
Qed.

(** C8. In a session, the handles issued, in order of issue, are 4-byte
    buffers whose big-endian values strictly increase; so each is greater
    than all issued before it and none occurs twice, whatever requests
    (closes included) come in between. *)
Theorem handle_ids_strictly_increase config cwd w evs :
  exists ids,
    Forall2 (fun h c => length h = 4%nat /\ readUInt32BE h = Some c)
            (reply_handles (fst (run config cwd (start w) evs))) ids
    /\ StronglySorted Z.lt ids
    /\ NoDup (reply_handles (fst (run config cwd (start w) evs))).
Proof.
  destruct (run_handles config cwd evs (start w)) as (ids & H2 & Hs & _).
  exists ids. repeat split; [exact H2 | exact Hs |].
  apply StronglySorted_lt_NoDup in Hs.
  revert Hs H2. generalize (reply_handles (fst (run config cwd (start w) evs))).
  intros hs Hnd H2. induction H2 as [|h c hs ids [_ Hread] H2 IH].
  - constructor.
  - apply NoDup_cons in Hnd as [Hnotin Hnd]. constructor; [|by apply IH].
    intros Hin. apply Hnotin.
    apply list_elem_of_lookup in Hin as [i Hi].
    destruct (Forall2_lookup_l _ _ _ _ _ H2 Hi) as (c' & Hc' & _ & Hread').
    rewrite Hread in Hread'. injection Hread' as <-.
    apply list_elem_of_lookup. eauto.
Qed.

(** ** Chunked reads *)

(** A READ of [0 < L < 2^31] bytes at a safe offset, through a handle
    whose descriptor is open on a regular file. *)
Lemma read_open_file handle fd d data offset L st :
  openFiles (sess st) !! handleKey handle = Some fd ->
  fds (world st) !! fd = Some d ->
  opened d = OnFile data ->
  0 < L < 2147483648 ->
  0 <= offset <= MAX_SAFE_INTEGER ->
  on_READ handle offset L st =
    (Ok (match take (Z.to_nat L) (drop (Z.to_nat offset) data) with
         | [] => Status STATUS_CODE.EOF
         | chunk => DataReply chunk
         end),
     {| sess := sess st; world := world st;
        calls := calls st ++ [CallRead fd offset L];
        fileHandles := fileHandles st |}).
Proof.
  intros Hf Hfd Hdata HL Hoff.
  unfold on_READ, fs_read, Buffer_alloc, MAX_LENGTH. unfold_M. simpl.
  rewrite Hf, (toInt32_small L) by lia.
  destruct (0 <=? L) eqn:E1; [|lia].
  destruct (L <=? 9007199254740991) eqn:E2; [|lia]. simpl.
  destruct (L =? 0) eqn:E3; [lia|]. destruct (L <? 0) eqn:E4; [lia|].
  destruct (offset <? -1) eqn:E5; [lia|].
  destruct (MAX_SAFE_INTEGER <? offset) eqn:E6; [lia|]. simpl.
  unfold world_read. rewrite Hfd, Hdata.
  destruct (offset =? -1) eqn:E7; [lia|].
  by destruct (take (Z.to_nat L) (drop (Z.to_nat offset) data)).
Qed.

Lemma read_chunks_from handle fd d data L :
  0 < L < 2147483648 ->
  Z.of_nat (length data) + L <= MAX_SAFE_INTEGER ->
  opened d = OnFile data ->
  forall fuel offset st,
    0 <= offset <= MAX_SAFE_INTEGER ->
    openFiles (sess st) !! handleKey handle = Some fd ->
    fds (world st) !! fd = Some d ->
    (length (drop (Z.to_nat offset) data) < fuel)%nat ->
    read_chunks fuel handle offset L st = Some (drop (Z.to_nat offset) data).
Proof.
  intros HL Hmax Hdata.
  induction fuel as [|fuel IH]; intros offset st Hoff Hf Hfd Hlen; [lia|].
  cbn [read_chunks].
  rewrite (read_open_file _ _ _ _ _ _ _ Hf Hfd Hdata HL Hoff).
  pose proof (take_drop (Z.to_nat L) (drop (Z.to_nat offset) data)) as Hsplit.
  destruct (take (Z.to_nat L) (drop (Z.to_nat offset) data)) as [|b chunk] eqn:E.
  - destruct (drop (Z.to_nat offset) data) as [|b rest] eqn:Ed; [done|].
    destruct (Z.to_nat L) eqn:EL; [lia | discriminate E].
  - assert (Hin : offset < Z.of_nat (length data)).
    { destruct (Z_lt_ge_dec offset (Z.of_nat (length data))) as [?|Hge];
        [done|].
      rewrite drop_ge in E by lia. by rewrite take_nil in E. }
    rewrite drop_drop in Hsplit.
    replace (Z.to_nat offset + Z.to_nat L)%nat with (Z.to_nat (offset + L))
      in Hsplit by lia.
    rewrite IH; simpl; try done; [f_equal; exact Hsplit | lia |].
    rewrite <- Hsplit in Hlen. rewrite length_app in Hlen. simpl in Hlen. lia.
Qed.

(** What a successful OPEN leaves behind: the table entry, the descriptor
    at the start of what is at the path, and the FileHandle nobody holds. *)
Lemma open_file_effect config cwd filename flags st handle :
  fst (on_OPEN config cwd filename flags st) = Ok (HandleReply handle) ->
  exists resolved node,
    Path.normalizePath cwd filename (rootDir config) = Ok resolved
    /\ nodes (world st) !! resolved = Some node
    /\ writeUInt32BE (handleCount (sess st)) = Ok handle
    /\ snd (on_OPEN config cwd filename flags st) =
         {| sess := {| openFiles := <[handleKey handle := next_fd (world st)]>
                                      (openFiles (sess st));
                       openDirs := openDirs (sess st);
                       handleCount := js_succ (handleCount (sess st)) |};
            world := {| nodes := nodes (world st);
                        fds := <[next_fd (world st) :=
                                   {| opened := open_on node; position := 0 |}]>
                                 (fds (world st));
                        next_fd := next_fd (world st) + 1 |};
            calls := calls st ++ [CallOpen resolved];
            fileHandles := fileHandles st ++ [next_fd (world st)] |}.
Proof.
  unfold on_OPEN, createHandle, openFiles_set, fsp_open, new_FileHandle,
    world_open.
  unfold_M. simpl.
  repeat case_match; simplify_eq; simpl; intros Hreply; simplify_eq.
  eexists _, _; repeat split; eauto.
Qed.

(** As long as the descriptor behind the handle stays open: after a
    successful OPEN of a regular file, reading it in chunks of a length
    [0 < L < 2^31] at offsets 0, L, 2L, ... until the end-of-file status
    returns chunks whose concatenation is the file's content (with more
    requests allowed than the file has bytes, the sequence ends); and a
    READ at an offset at or past the end of the file is answered with the
    end-of-file status. *)
Lemma reads_reassemble_while_open
    config cwd st filename flags handle resolved stat data L fuel :
  fst (on_OPEN config cwd filename flags st) = Ok (HandleReply handle) ->
  Path.normalizePath cwd filename (rootDir config) = Ok resolved ->
  nodes (world st) !! resolved = Some (NFile stat data) ->
  0 < L < 2147483648 ->
  Z.of_nat (length data) + L <= MAX_SAFE_INTEGER ->
  (length data < fuel)%nat ->
  let st' := snd (on_OPEN config cwd filename flags st) in
  read_chunks fuel handle 0 L st' = Some data
  /\ forall offset log,
       Z.of_nat (length data) <= offset <= MAX_SAFE_INTEGER ->
       fst (on_READ handle offset L
              {| sess := sess st'; world := world st'; calls := log;
                 fileHandles := fileHandles st' |})
       = Ok (Status STATUS_CODE.EOF).
Proof.
  intros Hopen Hres Hnode HL Hmax Hfuel st'.
  destruct (open_file_effect _ _ _ _ _ _ Hopen)
    as (r & node & Hr & Hn & _ & Hst').
  rewrite Hres in Hr. injection Hr as <-.
  rewrite Hnode in Hn. injection Hn as <-.
  assert (Hf : openFiles (sess st') !! handleKey handle
               = Some (next_fd (world st)))
    by (subst st'; rewrite Hst'; simpl; apply lookup_insert_eq).
  assert (Hfd : fds (world st') !! next_fd (world st)
                = Some {| opened := OnFile data; position := 0 |})
    by (subst st'; rewrite Hst'; simpl; apply lookup_insert_eq).
  split.
  - rewrite (read_chunks_from handle (next_fd (world st))
               {| opened := OnFile data; position := 0 |} data L HL Hmax
               eq_refl fuel 0 st'
               ltac:(unfold MAX_SAFE_INTEGER; lia) Hf Hfd); [done|].
    simpl. exact Hfuel.
  - intros offset log Hoff.
    rewrite (read_open_file handle (next_fd (world st))
               {| opened := OnFile data; position := 0 |} data offset L
               {| sess := sess st'; world := world st'; calls := log;
                  fileHandles := fileHandles st' |}
               Hf Hfd eq_refl HL ltac:(lia)).
    cbn [fst].
    rewrite drop_ge by lia. by rewrite take_nil.
Qed.

Example read_scenario_37_bytes :
  let st' := snd (on_OPEN demo_config demo_cwd "/loans.csv" 1
                          (start demo_world)) in
  fst (on_READ handle0 0 100 st') = Ok (DataReply loans_csv)
  /\ length loans_csv = 37%nat
  /\ fst (on_READ handle0 37 100 (snd (on_READ handle0 0 100 st')))
     = Ok (Status STATUS_CODE.EOF).
Proof. vm_compute. done. Qed.

(** Once the collector has closed the descriptor a file handle stands
    for, a READ through that handle fails, although the handle is still
    in the table and the file is where it was. *)
Lemma read_after_collection handle fd i offset L st :
  openFiles (sess st) !! handleKey handle = Some fd ->
  fileHandles st !! i = Some fd ->
  0 < L < 2147483648 ->
  0 <= offset <= MAX_SAFE_INTEGER ->
  fst (on_READ handle offset L (finalize i st))
    = Ok (Status STATUS_CODE.FAILURE)
  /\ openFiles (sess (finalize i st)) !! handleKey handle = Some fd
  /\ nodes (world (finalize i st)) = nodes (world st).
Proof.
  intros Hf Hi HL Hoff.
  destruct (finalize_keeps i st) as (Hsess & Hnodes & _).
  assert (Hclosed : fds (world (finalize i st)) !! fd = None).
  { unfold finalize, world_close. rewrite Hi. simpl.
    destruct (fds (world st) !! fd) eqn:E; simpl;
      [apply lookup_delete_eq | exact E]. }
  split; [|split; [by rewrite Hsess | exact Hnodes]].
  unfold on_READ, fs_read, Buffer_alloc, MAX_LENGTH. unfold_M. simpl.
  rewrite Hsess, Hf, (toInt32_small L) by lia.
  destruct (0 <=? L) eqn:E1; [|lia].
  destruct (L <=? 9007199254740991) eqn:E2; [|lia]. simpl.
  destruct (L =? 0) eqn:E3; [lia|]. destruct (L <? 0) eqn:E4; [lia|].
  destruct (offset <? -1) eqn:E5; [lia|].
  destruct (MAX_SAFE_INTEGER <? offset) eqn:E6; [lia|]. simpl.
  unfold world_read. by rewrite Hclosed.
Qed.

(** C2 (where the code departs from it). A client that opens [loans.csv]
    and reads it in chunks does not always get the file.  The OPEN handler
    keeps the descriptor's number and drops the FileHandle that owns it;
    when the collector runs between two reads of the download, the
    descriptor is closed under the handle, and the next READ is answered
    with the failure status in the middle of a file that is still there,
    unchanged.  And a chunk length of 2^31, which is a length [L > 0], gets
    no answer at all: [fs.read] throws, the READ handler has no [try], no
    frame is sent, and the sequence never reaches its end-of-file
    signal. *)
Theorem chunked_download_breaks :
  let download :=
    [Client (OPEN "/loans.csv" OPEN_MODE.READ);
     Client (READ handle0 0 20);
     Collect 0;
     Client (READ handle0 20 20)] in
  fst (run demo_config demo_cwd (start demo_world) download)
    = [HandleReply handle0;
       DataReply (take 20 loans_csv);
       Status STATUS_CODE.FAILURE]
  /\ nodes (world (snd (run demo_config demo_cwd (start demo_world) download)))
       !! "/data/loans.csv"%string
     = Some (NFile (file_stats 37) loans_csv)
  /\ fst (run demo_config demo_cwd (start demo_world)
              [Client (OPEN "/loans.csv" OPEN_MODE.READ);
               Client (READ handle0 0 2147483648)])
     = [HandleReply handle0]
  /\ forall fuel,
       read_chunks fuel handle0 0 2147483648
         (snd (on_OPEN demo_config demo_cwd "/loans.csv" OPEN_MODE.READ
                       (start demo_world)))
       = None.
Proof.
  split; [vm_compute; reflexivity|].
  split; [vm_compute; reflexivity|].
  split; [vm_compute; reflexivity|].
  intros [|fuel]; [reflexivity|]. cbn [read_chunks].
  rewrite (read_throws handle0 3); [reflexivity | vm_compute; reflexivity |].
  left. lia.
Qed.

(** ** Directory listings *)
















(** ** Opening files *)

Lemma toInt32_parity z : toInt32 z mod 2 = z mod 2.
Proof. unfold toInt32. Z.div_mod_to_equations. lia. Qed.

(** The test the OPEN handler makes looks at the lowest bit of the flags. *)
Lemma js_bitand_READ flags : js_bitand flags OPEN_MODE.READ = flags mod 2.
Proof.
  unfold js_bitand, OPEN_MODE.READ.
  change (toInt32 1) with (Z.ones 1).
  rewrite Z.land_ones by lia. change (2 ^ 1) with 2. apply toInt32_parity.
Qed.

(** C3 (as the code has it). OPEN is answered with the permission-denied
    status exactly when the flags do not ask for read access; then nothing
    else happens: no handle, no table entry, no filesystem call.  Whether
    write access is asked for plays no part: a request that asks for read
    access is served exactly as the request for read access alone is.
    Served means: when the path resolves to something that exists and the
    counter is in range, the reply is a new handle, entered in [openFiles]
    for a descriptor opened for reading at the start of what is there,
    after the one call [open(resolved, 'r')], with the files untouched. *)
Theorem open_denied_iff_no_read config cwd filename flags st :
  (fst (on_OPEN config cwd filename flags st)
     = Ok (Status STATUS_CODE.PERMISSION_DENIED)
   <-> js_bitand flags OPEN_MODE.READ = 0)
  /\ (js_bitand flags OPEN_MODE.READ = 0 ->
      on_OPEN config cwd filename flags st
        = (Ok (Status STATUS_CODE.PERMISSION_DENIED), st))
  /\ (js_bitand flags OPEN_MODE.READ <> 0 ->
      on_OPEN config cwd filename flags st
        = on_OPEN config cwd filename OPEN_MODE.READ st
      /\ forall resolved node,
           Path.normalizePath cwd filename (rootDir config) = Ok resolved ->
           nodes (world st) !! resolved = Some node ->
           0 <= handleCount (sess st) <= 4294967295 ->
           exists handle,
             writeUInt32BE (handleCount (sess st)) = Ok handle
             /\ on_OPEN config cwd filename flags st =
                  (Ok (HandleReply handle),
                   {| sess :=
                        {| openFiles :=
                             <[handleKey handle := next_fd (world st)]>
                               (openFiles (sess st));
                           openDirs := openDirs (sess st);
                           handleCount := js_succ (handleCount (sess st)) |};
                      world :=
                        {| nodes := nodes (world st);
                           fds := <[next_fd (world st) :=
                                      {| opened := open_on node;
                                         position := 0 |}]>
                                    (fds (world st));
                           next_fd := next_fd (world st) + 1 |};
                      calls := calls st ++ [CallOpen resolved];
                      fileHandles :=
                        fileHandles st ++ [next_fd (world st)] |})).
Proof.
  assert (Hdenied : js_bitand flags OPEN_MODE.READ = 0 ->
            on_OPEN config cwd filename flags st
              = (Ok (Status STATUS_CODE.PERMISSION_DENIED), st)).
  { intros H0. unfold on_OPEN. unfold_M. by rewrite H0. }
  assert (Hplain : js_bitand flags OPEN_MODE.READ <> 0 ->
            on_OPEN config cwd filename flags st
              = on_OPEN config cwd filename OPEN_MODE.READ st).
  { intros Hread. unfold on_OPEN. unfold_M.
    destruct (js_bitand flags OPEN_MODE.READ =? 0) eqn:E; [lia|].
    change (js_bitand OPEN_MODE.READ OPEN_MODE.READ =? 0) with false.
    reflexivity. }
  split; [split|split]; [|by intros H0; rewrite Hdenied|exact Hdenied|].
  - unfold on_OPEN, createHandle, openFiles_set, fsp_open, new_FileHandle.
    unfold_M. simpl.
    destruct (js_bitand flags OPEN_MODE.READ =? 0) eqn:E; [lia|].
    repeat case_match; simplify_eq; simpl; discriminate.
  - intros Hread. split; [by apply Hplain|].
    intros resolved node Hres Hnode Hcount.
    destruct (writeUInt32BE_in_range _ Hcount) as [handle Hw].
    exists handle. split; [exact Hw|].
    unfold on_OPEN, createHandle, openFiles_set, fsp_open, new_FileHandle,
      world_open.
    unfold_M. simpl.
    destruct (js_bitand flags OPEN_MODE.READ =? 0) eqn:E; [lia|].
    rewrite Hres. simpl. rewrite Hnode. simpl. by rewrite Hw.
Qed.

(** A write-only request is denied; a request for read, write and create
    together is given a handle on the file as it is. *)
Lemma open_denied_iff_no_read_witness :
  on_OPEN demo_config demo_cwd "/loans.csv" OPEN_MODE.WRITE (start demo_world)
  = (Ok (Status STATUS_CODE.PERMISSION_DENIED), start demo_world)
  /\ fst (on_OPEN demo_config demo_cwd "/loans.csv" 11 (start demo_world))
     = Ok (HandleReply handle0)
  /\ fds (world (snd (on_OPEN demo_config demo_cwd "/loans.csv" 11
                              (start demo_world)))) !! 3
     = Some {| opened := OnFile loans_csv; position := 0 |}
  /\ nodes (world (snd (on_OPEN demo_config demo_cwd "/loans.csv" 11
                                (start demo_world))))
     = nodes demo_world.
Proof.
  split.
  - apply (open_denied_iff_no_read demo_config demo_cwd "/loans.csv"
             OPEN_MODE.WRITE (start demo_world)).
    reflexivity.
  - destruct (open_denied_iff_no_read demo_config demo_cwd "/loans.csv" 11
                (start demo_world)) as (_ & _ & Hserved).
    destruct Hserved as [_ Hserved]; [vm_compute; discriminate|].
    destruct (Hserved "/data/loans.csv"%string
                (NFile (file_stats 37) loans_csv))
      as (handle & Hw & ->);
      [vm_compute; reflexivity | vm_compute; reflexivity | simpl; lia |].
    assert (handle = handle0) as ->
      by (vm_compute in Hw; injection Hw as <-; reflexivity).
    simpl. split; [done|]. split; [apply lookup_insert_eq | done].
Defined.

(** C3 as stated fails: a request for read and write access together asks
    for write access, and is given a handle. *)
Lemma open_read_write_gets_handle :
  let flags := 3 in
  let result := on_OPEN demo_config demo_cwd "/loans.csv" flags
                        (start demo_world) in
  js_bitand flags OPEN_MODE.WRITE <> 0
  /\ fst result = Ok (HandleReply handle0)
  /\ openFiles (sess (snd result)) !! handleKey handle0 = Some 3
  /\ fst result <> Ok (Status STATUS_CODE.PERMISSION_DENIED).
Proof. vm_compute. repeat split; discriminate. Qed.

(** ** Path sandbox *)

(** The check [normalizePath] makes: a result is returned exactly when
    [rootDir] is a string prefix of the resolved path. *)
Lemma normalizePath_checks_prefix cwd requestPath rootDir' :
  match Path.normalizePath cwd requestPath rootDir' with
  | Ok resolved => String.prefix rootDir' resolved = true
  | Err e => e = PathEscape
  end.
Proof.
  unfold Path.normalizePath.
  match goal with
  | |- context [String.prefix rootDir' ?r] =>
      destruct (String.prefix rootDir' r) eqn:E
  end; simpl; done.
Qed.

(** A path that fails the check is refused before any filesystem call:
    the handlers answer with the failure status and leave the state, the
    call record included, as it was. *)
Lemma path_escape_no_fs_call config cwd pathname st :
  Path.normalizePath cwd pathname (rootDir config) = Err PathEscape ->
  on_STAT config cwd pathname st = (Ok (Status STATUS_CODE.FAILURE), st)
  /\ on_LSTAT config cwd pathname st = (Ok (Status STATUS_CODE.FAILURE), st)
  /\ on_OPENDIR config cwd pathname st = (Ok (Status STATUS_CODE.FAILURE), st)
  /\ on_OPEN config cwd pathname OPEN_MODE.READ st
     = (Ok (Status STATUS_CODE.FAILURE), st).
Proof.
  intros He. unfold on_STAT, on_LSTAT, on_OPENDIR, on_OPEN. unfold_M.
  rewrite He. simpl. done.
Qed.

(** C1 (where the code departs from it). With root [/data], the request
    [/../data-secret/x] resolves to [/data-secret/x]; [/data] is a string
    prefix of it, so the path is returned although it is not within the
    root, and STAT and OPEN/READ go on to the file outside the root. *)
Theorem prefix_check_admits_sibling :
  Path.normalizePath demo_cwd "/../data-secret/x" (rootDir demo_config)
    = Ok "/data-secret/x"%string
  /\ Path.within (rootDir demo_config) "/data-secret/x" = false
  /\ fst (on_STAT demo_config demo_cwd "/../data-secret/x" (start demo_world))
     = Ok (AttrsReply (attrsFromStat (file_stats 1)))
  /\ calls (snd (on_STAT demo_config demo_cwd "/../data-secret/x"
                         (start demo_world)))
     = [CallStat "/data-secret/x"]
  /\ fst (run demo_config demo_cwd (start demo_world)
              [Client (OPEN "/../data-secret/x" OPEN_MODE.READ);
               Client (READ handle0 0 100)])
     = [HandleReply handle0; DataReply [x21]].
Proof. vm_compute. repeat split. Qed.

Example within_examples :
  Path.within "/data" "/data" = true
  /\ Path.within "/data" "/data/loans.csv" = true
  /\ Path.within "/data" "/etc/passwd" = false
  /\ Path.within "/data" "/data-secret/x" = false.
Proof. vm_compute. repeat split. Qed.

Example normalizePath_examples :
  Path.normalizePath "/srv" "" "/data" = Ok "/data"%string
  /\ Path.normalizePath "/srv" "." "/data" = Ok "/data"%string
  /\ Path.normalizePath "/srv" "loans.csv" "/data" = Ok "/data/loans.csv"%string
  /\ Path.normalizePath "/srv" "/a/../b//c/" "/data" = Ok "/data/b/c"%string
  /\ Path.normalizePath "/srv" "/../etc/passwd" "/data" = Err PathEscape
  /\ Path.normalizePath "/srv" "/x" "data" = Err PathEscape
  /\ Path.resolve "/srv" ["data"; "./a//b/./c/"] = "/srv/data/a/b/c"%string.
Proof. vm_compute. repeat split. Qed.

(** ** Authentication *)

Lemma authentication_accepts config ctx :
  on_authentication config ctx = Accept <->
    ctx_method ctx = "password"%string
    /\ ctx_username ctx = username config
    /\ ctx_password ctx = Some (password config).
Proof.
  unfold on_authentication, strictEqString. split.
  - destruct (String.eqb (ctx_method ctx) "password") eqn:Hm;
      [|discriminate].
    destruct (String.eqb (ctx_username ctx) (username config)) eqn:Hu;
      [|discriminate].
    destruct (ctx_password ctx) as [pw|]; [|discriminate].
    destruct (String.eqb pw (password config)) eqn:Hw; [|discriminate].
    intros _. apply String.eqb_eq in Hm, Hu, Hw. by subst.
  - intros (Hm & Hu & Hp). rewrite Hm, Hu, Hp. by rewrite !String.eqb_refl.
Qed.

(** C6. The handler accepts exactly when the method is 'password', the
    user name is the configured one and the password is the configured
    one; in every other case it rejects, in the same call. *)
Theorem authentication_accepts_iff config ctx :
  (on_authentication config ctx = Accept <->
     ctx_method ctx = "password"%string
     /\ ctx_username ctx = username config
     /\ ctx_password ctx = Some (password config))
  /\ (on_authentication config ctx = Reject <->
        ~ (ctx_method ctx = "password"%string
           /\ ctx_username ctx = username config
           /\ ctx_password ctx = Some (password config))).
Proof.
  pose proof (authentication_accepts config ctx) as Hacc.
  split; [exact Hacc|].
  destruct (on_authentication config ctx) eqn:E; split; try done.
  - intros Hnot. exfalso. by apply Hnot, Hacc.
  - intros _ Hall. apply Hacc in Hall. discriminate.
Qed.

Example authentication_examples :
  on_authentication demo_config
    {| ctx_method := "password"; ctx_username := "andbank";
       ctx_password := Some "sftp-test"%string |} = Accept
  /\ on_authentication demo_config
       {| ctx_method := "password"; ctx_username := "andbank";
          ctx_password := Some "sftp-tesT"%string |} = Reject
  /\ on_authentication demo_config
       {| ctx_method := "password"; ctx_username := "root";
          ctx_password := Some "sftp-test"%string |} = Reject
  /\ on_authentication demo_config
       {| ctx_method := "publickey"; ctx_username := "andbank";
          ctx_password := None |} = Reject
  /\ on_authentication demo_config
       {| ctx_method := "none"; ctx_username := "andbank";
          ctx_password := None |} = Reject.
Proof. vm_compute. repeat split. Qed.

(** ** Key store and start-up *)

(** C9 (as the code has it). A failure to create the key's directory, or
    to persist a freshly generated key, makes [ensureHostKey] fail and
    with it the start attempt: its promise, which every caller of that
    attempt holds, is rejected with that error, [startingPromise] is
    cleared, and no server is constructed or bound.  A failure to read the
    key is not fatal by itself: a fresh key is generated, and when it can
    be persisted the attempt goes on with it, to a server constructed with
    that key when nothing else fails. *)
Theorem key_store_failures p env l :
  promises l !! p = Some Pending ->
  (forall e,
      mkdir_keyDir (keyStore env) = Err e
      \/ (mkdir_keyDir (keyStore env) = Ok tt
          /\ (exists e', readFile_key (keyStore env) = Err e')
          /\ writeFile_key (keyStore env) = Err e) ->
      ensureHostKey (keyStore env) = Err e
      /\ promises (attempt_completes p env l) !! p = Some (Rejected e)
      /\ startingPromise (attempt_completes p env l) = None
      /\ servers (attempt_completes p env l) = servers l
      /\ bindAttempts (attempt_completes p env l) = bindAttempts l)
  /\ (forall e',
        mkdir_keyDir (keyStore env) = Ok tt ->
        readFile_key (keyStore env) = Err e' ->
        writeFile_key (keyStore env) = Ok tt ->
        ensureHostKey (keyStore env) = Ok (generateKeyPairSync (keyStore env))
        /\ (mkdir_rootDir env = Ok tt ->
            new_Server env = Ok tt ->
            server_listen env = Ok tt ->
            promises (attempt_completes p env l) !! p
              = Some (Fulfilled (length (servers l)))
            /\ servers (attempt_completes p env l) !! length (servers l)
               = Some {| hostKey := generateKeyPairSync (keyStore env);
                         state := ListenPending |})).
Proof.
  intros Hp. split.
  - intros e Hfail.
    assert (He : ensureHostKey (keyStore env) = Err e).
    { unfold ensureHostKey.
      destruct Hfail as [-> | (-> & [e' ->] & ->)]; done. }
    split; [exact He|].
    unfold attempt_completes, prepare. rewrite Hp, He. simpl.
    repeat split; try done.
    apply list_lookup_insert_eq. by eapply lookup_lt_Some.
  - intros e' Hm Hr Hw.
    assert (Hkey : ensureHostKey (keyStore env)
                   = Ok (generateKeyPairSync (keyStore env)))
      by (unfold ensureHostKey; by rewrite Hm, Hr, Hw).
    split; [exact Hkey|]. intros Hroot Hnew Hlisten.
    unfold attempt_completes, prepare.
    rewrite Hp, Hkey, Hroot, Hnew, Hlisten. simpl. split.
    + apply list_lookup_insert_eq. by eapply lookup_lt_Some.
    + by rewrite list_lookup_middle.
Qed.

Lemma key_store_failures_witness :
  promises (attempt_completes 0 readonly_key_start
              (snd (startMockSftpServer initial))) !! 0%nat
    = Some (Rejected (FsError EACCES))
  /\ ensureHostKey unreadable_key_store = Ok fresh_key.
Proof.
  destruct (key_store_failures 0 readonly_key_start
              (snd (startMockSftpServer initial)) eq_refl) as [Hfail _].
  destruct (key_store_failures 0 unreadable_key_start
              (snd (startMockSftpServer initial)) eq_refl) as [_ Hfresh].
  split.
  - apply (Hfail (FsError EACCES)). right.
    repeat split; [by exists (FsError ENOENT)].
  - exact (proj1 (Hfresh (FsError EACCES) eq_refl eq_refl eq_refl)).
Defined.

(** C9 as stated fails: the key file exists but cannot be read; the read
    fails, yet the start does not: a fresh key is generated and persisted,
    the promise is fulfilled, and the server listens with the fresh key. *)
Lemma unreadable_key_starts_with_fresh_key :
  let run := lifecycle_run initial
               [Call; AttemptCompletes 0 unreadable_key_start;
                ListenCallback 0] in
  readFile_key (keyStore unreadable_key_start) = Err (FsError EACCES)
  /\ fst run = [ReturnsPromise 0]
  /\ promises (snd run) !! 0%nat = Some (Fulfilled 0)
  /\ serverInstance (snd run) = Some 0%nat
  /\ servers (snd run) = [{| hostKey := fresh_key; state := Listening |}]
  /\ (forall e, promises (snd run) !! 0%nat <> Some (Rejected e)).
Proof. vm_compute. repeat split. discriminate. Qed.

(** ** The start-up singleton over time *)

Lemma state_of_set_state l s x s' srvs :
  servers l = srvs ->
  state <$> set_state s x srvs !! s' =
    if decide (s = s') then
      match state_of l s with Some _ => Some x | None => None end
    else state_of l s'.
Proof.
  intros <-. unfold set_state, state_of.
  destruct (servers l !! s) as [info|] eqn:E; simpl.
  - destruct (decide (s = s')) as [<-|Hne].
    + rewrite list_lookup_insert_eq by (by eapply lookup_lt_Some). done.
    + by rewrite list_lookup_insert_ne.
  - destruct (decide (s = s')) as [<-|Hne]; [by rewrite E | done].
Qed.

Lemma state_of_update l s x s' si sp ps ba :
  state_of {| serverInstance := si; startingPromise := sp; promises := ps;
              servers := set_state s x (servers l); bindAttempts := ba |} s' =
    if decide (s = s') then
      match state_of l s with Some _ => Some x | None => None end
    else state_of l s'.
Proof. unfold state_of at 1. simpl. by apply state_of_set_state. Qed.

Lemma state_of_app l info s x :
  state_of l s = Some x -> state <$> (servers l ++ [info]) !! s = Some x.
Proof.
  unfold state_of. intros H.
  destruct (servers l !! s) as [i|] eqn:E; [|done].
  by rewrite (lookup_app_l_Some _ _ _ _ E).
Qed.

Lemma state_of_app_inv l info s x :
  state <$> (servers l ++ [info]) !! s = Some x ->
  state_of l s = Some x \/ (s = length (servers l) /\ x = state info).
Proof.
  unfold state_of. intros H.
  destruct (decide (s < length (servers l))%nat) as [Hlt|Hge].
  - left. by rewrite lookup_app_l in H.
  - right. rewrite lookup_app_r in H by lia.
    destruct (s - length (servers l))%nat as [|n] eqn:E; simpl in H; [|done].
    split; [lia | congruence].
Qed.

Lemma initial_inv : lifecycle_inv initial.
Proof. constructor; unfold state_of; simpl; intros; done. Qed.

Lemma initial_once : started_once initial.
Proof. constructor; simpl; [done | by left]. Qed.

Lemma call_inv l :
  lifecycle_inv l -> lifecycle_inv (snd (startMockSftpServer l)).
Proof.
  intros Hinv. pose proof Hinv as [Hp Ho Hi]. unfold startMockSftpServer.
  destruct (serverInstance l) as [s|] eqn:Es; [exact Hinv|].
  destruct (startingPromise l) as [p|] eqn:Ep; [exact Hinv|].
  constructor; unfold state_of in *; simpl.
  - intros p Hl. destruct (decide (p < length (promises l))%nat) as [Hlt|Hge].
    + rewrite lookup_app_l in Hl by done. apply Hp in Hl. congruence.
    + apply lookup_lt_Some in Hl. rewrite length_app in Hl. simpl in Hl.
      f_equal. lia.
  - intros s x Hs Hx. destruct (Ho s x Hs Hx) as (p & Hsp & _). congruence.
  - intros s Hs. congruence.
Qed.

Lemma attempt_inv p env l :
  lifecycle_inv l -> lifecycle_inv (attempt_completes p env l).
Proof.
  intros Hinv. pose proof Hinv as [Hp Ho Hi]. unfold attempt_completes.
  destruct (promises l !! p) as [[| |]|] eqn:Epp; try done.
  pose proof (Hp _ Epp) as Hsp.
  assert (Hnone : forall s x, state_of l s = Some x -> open_state x = false).
  { intros s x Hs. destruct (open_state x) eqn:Hx; [|done].
    destruct (Ho s x Hs Hx) as (p' & Hsp' & Hf). congruence. }
  assert (Hother : forall e' p',
            <[p := e']> (promises l) !! p' = Some Pending ->
            e' <> Pending -> False).
  { intros e' p' Hl Hne. destruct (decide (p = p')) as [<-|Hpp].
    - rewrite list_lookup_insert_eq in Hl by (by eapply lookup_lt_Some).
      congruence.
    - rewrite list_lookup_insert_ne in Hl by done.
      apply Hp in Hl. congruence. }
  destruct (prepare env) as [key|e]; [destruct (server_listen env) as [[]|e]|];
    constructor; unfold state_of in *; simpl.
  - intros p' Hl. exfalso. by eapply Hother.
  - intros s x Hs Hx. apply state_of_app_inv in Hs as [Hs|[-> ->]].
    + apply Hnone in Hs. congruence.
    + exists p. split; [done|].
      apply list_lookup_insert_eq. by eapply lookup_lt_Some.
  - intros s Hs. apply Hi in Hs. by apply state_of_app.
  - intros p' Hl. exfalso. by eapply Hother.
  - intros s x Hs Hx. apply state_of_app_inv in Hs as [Hs|[-> ->]].
    + apply Hnone in Hs. congruence.
    + done.
  - intros s Hs. apply Hi in Hs. by apply state_of_app.
  - intros p' Hl. exfalso. by eapply Hother.
  - intros s x Hs Hx. apply Hnone in Hs. congruence.
  - intros s Hs. by apply Hi.
Qed.

Lemma listen_callback_inv s l :
  lifecycle_inv l -> lifecycle_inv (listen_callback s l).
Proof.
  intros Hinv. pose proof Hinv as [Hp Ho Hi]. unfold listen_callback.
  destruct (state_of l s) as [[| | | |]|] eqn:Es; try done.
  constructor; simpl.
  - done.
  - intros s' x. rewrite state_of_update.
    destruct (decide (s = s')) as [<-|Hne].
    + rewrite Es. intros _ _. by apply (Ho s ListenPending).
    + apply Ho.
  - intros s' [= <-]. rewrite state_of_update.
    rewrite decide_True by done. by rewrite Es.
Qed.

Lemma listen_error_inv s l :
  lifecycle_inv l -> lifecycle_inv (listen_error s l).
Proof.
  intros Hinv. pose proof Hinv as [Hp Ho Hi]. unfold listen_error.
  destruct (state_of l s) as [[| | | |]|] eqn:Es; try done.
  constructor; simpl.
  - done.
  - intros s' x. rewrite state_of_update.
    destruct (decide (s = s')) as [<-|Hne].
    + rewrite Es. intros _ _. by apply (Ho s ListenPending).
    + apply Ho.
  - intros s' Hs'. rewrite state_of_update.
    destruct (decide (s = s')) as [<-|Hne]; [|by apply Hi].
    apply Hi in Hs'. congruence.
Qed.

Lemma close_event_inv s l :
  lifecycle_inv l -> lifecycle_inv (close_event s l).
Proof.
  intros Hinv. pose proof Hinv as [Hp Ho Hi]. unfold close_event.
  assert (Hgoal : forall x, state_of l s = Some x -> open_state x = true ->
            lifecycle_inv
              {| serverInstance := None; startingPromise := None;
                 promises := promises l;
                 servers := set_state s Closed (servers l);
                 bindAttempts := bindAttempts l |}).
  { intros x Es Hx. destruct (Ho s x Es Hx) as (p & Hsp & Hf).
    constructor; simpl.
    - intros p' Hl. pose proof (Hp _ Hl). congruence.
    - intros s' x'. rewrite state_of_update.
      destruct (decide (s = s')) as [<-|Hne].
      + rewrite Es. intros [= <-]. done.
      + intros Hs' Hx'. destruct (Ho s' x' Hs' Hx') as (p' & Hsp' & Hf').
        congruence.
    - done. }
  destruct (state_of l s) as [[| | | |]|] eqn:Es; try done;
    by eapply Hgoal.
Qed.

Lemma lifecycle_step_inv l ev :
  lifecycle_inv l -> lifecycle_inv (snd (lifecycle_step l ev)).
Proof.
  intros Hinv. destruct ev as [|p env|s|s|s]; simpl.
  - pose proof (call_inv l Hinv) as H.
    by destruct (startMockSftpServer l).
  - by apply attempt_inv.
  - by apply listen_callback_inv.
  - by apply listen_error_inv.
  - by apply close_event_inv.
Qed.

Lemma lifecycle_run_cons l ev evs :
  lifecycle_run l (ev :: evs) =
    (match fst (lifecycle_step l ev) with
     | Some r => [r]
     | None => []
     end ++ fst (lifecycle_run (snd (lifecycle_step l ev)) evs),
     snd (lifecycle_run (snd (lifecycle_step l ev)) evs)).
Proof.
  cbn [lifecycle_run]. destruct (lifecycle_step l ev) as [r l'].
  cbn [fst snd]. destruct (lifecycle_run l' evs) as [rs l''].
  by destruct r.
Qed.

Lemma lifecycle_run_inv evs : forall l,
  lifecycle_inv l -> lifecycle_inv (snd (lifecycle_run l evs)).
Proof.
  induction evs as [|ev evs IH]; intros l Hinv; [done|].
  rewrite lifecycle_run_cons. cbn [snd]. by apply IH, lifecycle_step_inv.
Qed.

(** A fulfilled promise stays fulfilled with the same server. *)
Lemma fulfilled_stable l ev p s :
  promises l !! p = Some (Fulfilled s) ->
  promises (snd (lifecycle_step l ev)) !! p = Some (Fulfilled s).
Proof.
  intros Hf. destruct ev as [|p' env|s'|s'|s']; simpl.
  - unfold startMockSftpServer.
    destruct (serverInstance l); [done|]. destruct (startingPromise l); [done|].
    simpl. by apply lookup_app_l_Some.
  - unfold attempt_completes.
    destruct (promises l !! p') as [[| |]|] eqn:Ep; try done.
    assert (p' <> p) by congruence.
    destruct (prepare env); [destruct (server_listen env)|]; simpl;
      by rewrite list_lookup_insert_ne.
  - unfold listen_callback. by destruct (state_of l s') as [[| | | |]|].
  - unfold listen_error. by destruct (state_of l s') as [[| | | |]|].
  - unfold close_event. by destruct (state_of l s') as [[| | | |]|].
Qed.

Lemma fulfilled_stable_run evs : forall l p s,
  promises l !! p = Some (Fulfilled s) ->
  promises (snd (lifecycle_run l evs)) !! p = Some (Fulfilled s).
Proof.
  induction evs as [|ev evs IH]; intros l p s Hf; [done|].
  rewrite lifecycle_run_cons. cbn [snd]. by apply IH, fulfilled_stable.
Qed.

Lemma lifecycle_step_once l ev :
  lifecycle_inv l -> started_once l -> is_close ev = false ->
  started_once (snd (lifecycle_step l ev)).
Proof.
  intros [Hp Ho Hi] Honce Hev. pose proof Honce as [Hf Ha].
  destruct ev as [|p env|s|s|s]; simpl; try done.
  - unfold startMockSftpServer.
    destruct (serverInstance l) as [s|] eqn:Es; [exact Honce|].
    destruct (startingPromise l) as [p|] eqn:Ep; [exact Honce|].
    constructor; simpl.
    + intros p s Hl.
      destruct (decide (p < length (promises l))%nat) as [Hlt|Hge].
      * rewrite lookup_app_l in Hl by done. apply Hf in Hl. congruence.
      * rewrite lookup_app_r in Hl by lia.
        destruct (p - length (promises l))%nat; simpl in Hl; done.
    + destruct Ha as [Ha|(_ & p & s & Hsp & _)]; [by left | congruence].
  - unfold attempt_completes.
    destruct (promises l !! p) as [[| |]|] eqn:Epp; try done.
    pose proof (Hp _ Epp) as Hsp.
    assert (Hzero : bindAttempts l = 0%nat).
    { destruct Ha as [Ha|(_ & p' & s & Hsp' & Hf')]; [done | congruence]. }
    assert (Hnof : forall e' p' s,
              <[p := e']> (promises l) !! p' = Some (Fulfilled s) -> p' = p).
    { intros e' p' s Hl. destruct (decide (p = p')) as [|Hne]; [done|].
      rewrite list_lookup_insert_ne in Hl by done.
      apply Hf in Hl. congruence. }
    assert (Hat : forall e', <[p := e']> (promises l) !! p = Some e').
    { intros e'. apply list_lookup_insert_eq. by eapply lookup_lt_Some. }
    destruct (prepare env) as [key|e]; [destruct (server_listen env) as [[]|e]|];
      constructor; simpl.
    + intros p' s Hl. apply Hnof in Hl. congruence.
    + right. split; [lia|]. exists p, (length (servers l)). by rewrite Hat.
    + intros p' s Hl. pose proof (Hnof _ _ _ Hl) as ->.
      rewrite Hat in Hl. done.
    + by left.
    + intros p' s Hl. pose proof (Hnof _ _ _ Hl) as ->.
      rewrite Hat in Hl. done.
    + by left.
  - unfold listen_callback. by destruct (state_of l s) as [[| | | |]|].
  - unfold listen_error. by destruct (state_of l s) as [[| | | |]|].
Qed.

Lemma lifecycle_run_once evs : forall l,
  lifecycle_inv l -> started_once l ->
  forallb (fun ev => negb (is_close ev)) evs = true ->
  started_once (snd (lifecycle_run l evs)).
Proof.
  induction evs as [|ev evs IH]; intros l Hinv Honce Hevs; [done|].
  simpl in Hevs. apply andb_prop in Hevs as [Hev Hevs].
  rewrite lifecycle_run_cons. cbn [snd].
  apply IH; [by apply lifecycle_step_inv | | done].
  apply lifecycle_step_once; try done. by destruct (is_close ev).
Qed.

Lemma lifecycle_step_call l :
  lifecycle_step l Call =
    (Some (fst (startMockSftpServer l)), snd (startMockSftpServer l)).
Proof. simpl. by destruct (startMockSftpServer l). Qed.

Lemma call_returns_instance l s :
  fst (startMockSftpServer l) = ReturnsInstance s -> serverInstance l = Some s.
Proof.
  unfold startMockSftpServer.
  destruct (serverInstance l); [simpl; congruence|].
  destruct (startingPromise l); simpl; discriminate.
Qed.

(** A caller handed the running instance is handed the server some
    promise was fulfilled with. *)
Lemma instance_was_promised evs : forall l s,
  lifecycle_inv l ->
  ReturnsInstance s ∈ fst (lifecycle_run l evs) ->
  exists p, promises (snd (lifecycle_run l evs)) !! p = Some (Fulfilled s).
Proof.
  induction evs as [|ev evs IH]; intros l s Hinv Hin.
  { simpl in Hin. by apply elem_of_nil in Hin. }
  rewrite lifecycle_run_cons in *. cbn [fst snd] in *.
  apply elem_of_app in Hin as [Hin|Hin].
  - destruct ev as [|p env|s'|s'|s'];
      try (simpl in Hin; by apply elem_of_nil in Hin).
    rewrite lifecycle_step_call in Hin. cbn [fst] in Hin.
    apply list_elem_of_singleton in Hin. symmetry in Hin.
    apply call_returns_instance in Hin.
    destruct Hinv as [_ Ho Hi].
    destruct (Ho s Listening (Hi s Hin) eq_refl) as (p & _ & Hf).
    exists p. by apply fulfilled_stable_run, fulfilled_stable.
  - eapply IH; [by apply lifecycle_step_inv | exact Hin].
Qed.

(** C7. Over every sequence of start calls and of the completions and
    server events between them: at any time at most one server has its
    socket bound or being bound; a call made while a start is in flight
    returns that start's promise and begins nothing; a call made once the
    server is running returns the running instance and begins nothing;
    and as long as no server has been closed, [listen] has been called at
    most once and all callers whose result has settled on a server have
    the same server. *)
Theorem single_listener evs :
  let results := fst (lifecycle_run initial evs) in
  let l := snd (lifecycle_run initial evs) in
  (forall s1 s2, live l s1 -> live l s2 -> s1 = s2)
  /\ (forall p, startingPromise l = Some p ->
                promises l !! p = Some Pending ->
                startMockSftpServer l = (ReturnsPromise p, l))
  /\ (forall s, serverInstance l = Some s ->
                startMockSftpServer l = (ReturnsInstance s, l)
                /\ state_of l s = Some Listening)
  /\ (forallb (fun ev => negb (is_close ev)) evs = true ->
      (bindAttempts l <= 1)%nat
      /\ forall r1 r2 s1 s2,
           r1 ∈ results -> r2 ∈ results ->
           resolves_to l r1 = Some s1 -> resolves_to l r2 = Some s2 ->
           s1 = s2).
Proof.
  intros results l.
  assert (Hinv : lifecycle_inv l) by apply lifecycle_run_inv, initial_inv.
  pose proof Hinv as [Hp Ho Hi].
  assert (Hlive : forall s, live l s ->
            exists p, startingPromise l = Some p
                      /\ promises l !! p = Some (Fulfilled s)).
  { intros s (info & Hs & Hl). apply (Ho s (state info)).
    - unfold state_of. by rewrite Hs.
    - unfold is_live in Hl. by destruct (state info). }
  split; [|split; [|split]].
  - intros s1 s2 H1 H2.
    destruct (Hlive _ H1) as (p1 & Hsp1 & Hf1).
    destruct (Hlive _ H2) as (p2 & Hsp2 & Hf2). congruence.
  - intros p Hsp Hpend. unfold startMockSftpServer. rewrite Hsp.
    destruct (serverInstance l) as [s|] eqn:Es; [|done].
    destruct (Ho s Listening (Hi s eq_refl) eq_refl) as (p' & Hsp' & Hf).
    congruence.
  - intros s Hs. split; [|by apply Hi].
    unfold startMockSftpServer. by rewrite Hs.
  - intros Hevs.
    assert (Honce : started_once l)
      by (apply lifecycle_run_once; [apply initial_inv | apply initial_once | done]).
    destruct Honce as [Hf Ha]. split.
    { destruct Ha as [Ha|[Ha _]]; lia. }
    assert (Hres : forall r s, r ∈ results -> resolves_to l r = Some s ->
              exists p, startingPromise l = Some p
                        /\ promises l !! p = Some (Fulfilled s)).
    { intros r s Hin Hr. destruct r as [s'|p]; simpl in Hr.
      - injection Hr as ->.
        destruct (instance_was_promised evs initial s initial_inv Hin)
          as (p & Hfp).
        exists p. split; [by eapply Hf | exact Hfp].
      - destruct (promises l !! p) as [[| |]|] eqn:Epp; try done.
        injection Hr as ->. exists p. split; [by eapply Hf | done]. }
    intros r1 r2 s1 s2 Hin1 Hin2 Hr1 Hr2.
    destruct (Hres _ _ Hin1 Hr1) as (p1 & Hsp1 & Hf1).
    destruct (Hres _ _ Hin2 Hr2) as (p2 & Hsp2 & Hf2). congruence.
Qed.

(** Three callers race before the attempt completes, a fourth calls while
    the socket is being bound, a fifth once it is bound. *)
Lemma single_listener_witness :
  let evs := [Call; Call; Call; AttemptCompletes 0 unreadable_key_start;
              Call; ListenCallback 0; Call] in
  fst (lifecycle_run initial evs)
    = [ReturnsPromise 0; ReturnsPromise 0; ReturnsPromise 0;
       ReturnsPromise 0; ReturnsInstance 0]
  /\ (bindAttempts (snd (lifecycle_run initial evs)) <= 1)%nat
  /\ startMockSftpServer (snd (lifecycle_run initial evs))
     = (ReturnsInstance 0, snd (lifecycle_run initial evs)).
Proof.
  intros evs.
  destruct (single_listener evs) as (_ & _ & Hrunning & Honce).
  split; [vm_compute; reflexivity|].
  split.
  - apply Honce. reflexivity.
  - apply (Hrunning 0%nat). reflexivity.
Defined.

(** ** What the sandbox resolves *)

Lemma split_nonempty s : Path.split s <> [].
Proof.
  destruct s as [|c s]; simpl; [done|].
  destruct (Ascii.eqb c "/"); [done|]. by destruct (Path.split s).
Qed.

Lemma split_app a : forall b,
  Path.split (a +:+ "/" +:+ b) = Path.split a ++ Path.split b.
Proof.
  induction a as [|c a IH]; intros b; [done|].
  change (String c a +:+ "/" +:+ b) with (String c (a +:+ "/" +:+ b)).
  cbn [Path.split]. rewrite IH. destruct (Ascii.eqb c "/"); [done|].
  pose proof (split_nonempty a). by destruct (Path.split a).
Qed.

Lemma split_slash_free s : Forall (fun seg => hasSeparator seg = false) (Path.split s).
Proof.
  induction s as [|c s IH]; simpl; [by repeat constructor|].
  destruct (Ascii.eqb c "/") eqn:Ec; [by constructor|].
  pose proof (split_nonempty s).
  destruct (Path.split s) as [|seg segs]; [done|].
  apply Forall_cons in IH as [Hseg Hsegs]. constructor; [|done].
  simpl. by rewrite Ec.
Qed.

Lemma split_one seg : hasSeparator seg = false -> Path.split seg = [seg].
Proof.
  induction seg as [|c seg IH]; simpl; [done|].
  intros H. apply orb_false_iff in H as [Hc Hs]. rewrite Hc, (IH Hs). done.
Qed.

Lemma joinSegments_cons seg seg' segs :
  Path.joinSegments (seg :: seg' :: segs)
  = seg +:+ "/" +:+ Path.joinSegments (seg' :: segs).
Proof. reflexivity. Qed.

(** Splitting undoes joining, for segments without a separator inside. *)
Lemma split_joinSegments segs :
  segs <> [] -> Forall (fun seg => hasSeparator seg = false) segs ->
  Path.split (Path.joinSegments segs) = segs.
Proof.
  induction segs as [|seg segs IH]; intros Hne Hall; [done|].
  apply Forall_cons in Hall as [Hseg Hsegs].
  destruct segs as [|seg' segs]; [by apply split_one|].
  rewrite joinSegments_cons, split_app, split_one by done.
  rewrite IH; done.
Qed.

Lemma cleanSegment_spec seg :
  cleanSegment seg = true ->
  String.eqb seg "" = false /\ String.eqb seg "." = false
  /\ String.eqb seg ".." = false /\ hasSeparator seg = false.
Proof.
  unfold cleanSegment. intros H.
  repeat (apply andb_prop in H as [H ?]).
  repeat split; by apply negb_true_iff.
Qed.

(** Clean segments are pushed as they come. *)
Lemma normalize_clean allow segs : forall kept,
  Forall (fun seg => cleanSegment seg = true) segs ->
  fold_left (Path.normalizeSegment allow) segs kept = rev segs ++ kept.
Proof.
  induction segs as [|seg segs IH]; intros kept Hall; [done|].
  apply Forall_cons in Hall as [Hseg Hsegs].
  destruct (cleanSegment_spec _ Hseg) as (H1 & H2 & H3 & _).
  cbn [fold_left]. unfold Path.normalizeSegment at 2.
  rewrite H1, H2, H3. cbn [orb]. rewrite IH by done.
  cbn [rev]. by rewrite <- app_assoc.
Qed.

(** Without "..", normalizing only drops the empty and "." segments. *)
Lemma normalize_without_dotdot allow segs : forall kept,
  Forall (fun seg => String.eqb seg ".." = false) segs ->
  fold_left (Path.normalizeSegment allow) segs kept
  = rev (List.filter (fun seg => negb (String.eqb seg "" || String.eqb seg "."))
                     segs) ++ kept.
Proof.
  induction segs as [|seg segs IH]; intros kept Hall; [done|].
  apply Forall_cons in Hall as [Hseg Hsegs].
  cbn [fold_left List.filter]. unfold Path.normalizeSegment at 2.
  destruct (String.eqb seg "" || String.eqb seg ".") eqn:E; cbn [negb].
  - by apply IH.
  - rewrite Hseg, IH by done. cbn [rev]. by rewrite <- app_assoc.
Qed.

(** At or below the root, normalizing never keeps an empty, "." or ".."
    segment. *)
Lemma normalize_keeps_clean segs : forall kept,
  Forall (fun seg => hasSeparator seg = false) segs ->
  Forall (fun seg => cleanSegment seg = true) kept ->
  Forall (fun seg => cleanSegment seg = true)
         (fold_left (Path.normalizeSegment false) segs kept).
Proof.
  induction segs as [|seg segs IH]; intros kept Hfree Hkept; [done|].
  apply Forall_cons in Hfree as [Hseg Hsegs].
  cbn [fold_left]. apply IH; [done|].
  unfold Path.normalizeSegment.
  destruct (String.eqb seg "") eqn:E1; [done|].
  destruct (String.eqb seg ".") eqn:E2; [done|]. cbn [orb].
  destruct (String.eqb seg "..") eqn:E3.
  - destruct kept as [|last rest]; [done|].
    apply Forall_cons in Hkept as [Hlast Hrest].
    destruct (cleanSegment_spec _ Hlast) as (_ & _ & -> & _). done.
  - constructor; [|done]. unfold cleanSegment. by rewrite E1, E2, E3, Hseg.
Qed.

Lemma prefix_cons a s1 b s2 :
  String.prefix (String a s1) (String b s2)
  = if ascii_dec a b then String.prefix s1 s2 else false.
Proof. reflexivity. Qed.

Lemma prefix_slash s :
  String.prefix "/" s = true -> exists s', s = String "/" s'.
Proof.
  destruct s as [|c s]; [done|]. rewrite prefix_cons.
  destruct (ascii_dec "/" c) as [<-|]; [eauto | done].
Qed.

Lemma prefix_app s t : String.prefix s (s +:+ t) = true.
Proof.
  induction s as [|c s IH]; [by destruct t|].
  change (String c s +:+ t) with (String c (s +:+ t)). rewrite prefix_cons.
  by destruct (ascii_dec c c).
Qed.

Lemma append_assoc a b c : (a +:+ b) +:+ c = a +:+ b +:+ c.
Proof.
  induction a as [|x a IH]; [done|].
  change ((String x a +:+ b) +:+ c) with (String x ((a +:+ b) +:+ c)).
  by rewrite IH.
Qed.

Lemma joinSegments_app a b :
  a <> [] -> b <> [] ->
  Path.joinSegments (a ++ b)
  = Path.joinSegments a +:+ "/" +:+ Path.joinSegments b.
Proof.
  induction a as [|seg a IH]; intros Ha Hb; [done|].
  destruct a as [|seg' a].
  - destruct b; [done|]. done.
  - rewrite <- !app_comm_cons, !joinSegments_cons, app_comm_cons.
    rewrite IH by done. by rewrite !append_assoc.
Qed.

Lemma prefix_empty s : String.prefix "" s = true.
Proof. by destruct s. Qed.

Lemma append_empty_r s : s +:+ "" = s.
Proof.
  induction s as [|c s IH]; [done|].
  change (String c s +:+ "") with (String c (s +:+ "")). by rewrite IH.
Qed.

(** The path [normalizePath] hands to [path.resolve] always starts with a
    separator; what follows it has the request's segments. *)
Lemma cleanPath_rooted requestPath :
  let cleanPath :=
    if String.eqb requestPath "" || String.eqb requestPath "."
    then "/"%string else requestPath in
  let cleanPath :=
    if negb (String.prefix "/" cleanPath) then "/" +:+ cleanPath
    else cleanPath in
  exists tail,
    cleanPath = String "/" tail
    /\ List.filter (fun seg => negb (String.eqb seg "" || String.eqb seg "."))
                   (Path.split tail)
       = requestSegments requestPath
    /\ (Forall (fun seg => String.eqb seg ".." = false) (Path.split requestPath)
        -> Forall (fun seg => String.eqb seg ".." = false) (Path.split tail)).
Proof.
  unfold requestSegments.
  destruct (String.eqb_spec requestPath "") as [->|Hne1].
  { exists ""%string. repeat split. by repeat constructor. }
  destruct (String.eqb_spec requestPath ".") as [->|Hne2].
  { exists ""%string. repeat split. by repeat constructor. }
  cbn [orb]. cbv zeta.
  destruct (String.prefix "/" requestPath) eqn:Hp; cbn [negb].
  - apply prefix_slash in Hp as [tail ->]. exists tail.
    split; [done|]. split; [done|].
    cbn [Path.split]. change (Ascii.eqb "/" "/") with true. cbv iota.
    intros H. by apply Forall_cons in H as [_ H].
  - exists requestPath. repeat split; done.
Qed.

(** What [path.resolve(rootDir, './...')] computes under an absolute
    root: the segments of the root and of the request, normalized, with the
    working directory playing no part. *)
Lemma resolve_under_absolute_root cwd rootDir' tail :
  Path.isAbsolute rootDir' = true ->
  Path.resolve cwd [rootDir'; "." +:+ String "/" tail]
  = "/" +:+ Path.joinSegments
              (rev (fold_left (Path.normalizeSegment false)
                              (Path.split rootDir' ++ ["."%string]
                                 ++ Path.split tail ++ [""%string]) [])).
Proof.
  intros Habs. unfold Path.resolve. cbn [rev app Path.resolveLoop].
  change ("." +:+ String "/" tail) with (String "." (String "/" tail)).
  change (String.eqb (String "." (String "/" tail)) "") with false.
  cbv iota. unfold Path.isAbsolute at 1. rewrite prefix_cons.
  destruct (ascii_dec "/" ".") as [Heq|_]; [discriminate Heq|].
  unfold Path.isAbsolute in Habs.
  destruct (prefix_slash _ Habs) as [r ->].
  change (String.eqb (String "/" r) "") with false. cbv iota.
  unfold Path.isAbsolute. rewrite Habs. cbn [negb].
  unfold Path.normalizeString. do 2 f_equal. f_equal.
  rewrite split_app. f_equal.
  change (String "." (String "/" tail) +:+ "/" +:+ "")
    with (("." +:+ "/" +:+ tail) +:+ "/" +:+ "").
  rewrite split_app.
  change ("." +:+ "/" +:+ tail) with ("." +:+ "/" +:+ tail).
  rewrite (split_app "." tail). by rewrite <- app_assoc.
Qed.

Lemma components_root segs :
  Forall (fun seg => cleanSegment seg = true) segs ->
  Path.components ("/" +:+ Path.joinSegments segs) = segs.
Proof.
  intros Hall. unfold Path.components.
  change ("/" +:+ Path.joinSegments segs)
    with (String "/" (Path.joinSegments segs)).
  cbn [Path.split]. change (Ascii.eqb "/" "/") with true. cbv iota.
  rewrite filter_cons_False by (intros H; by apply H).
  destruct segs as [|seg segs]; [done|].
  rewrite split_joinSegments; [|done|].
  - induction Hall as [|x l Hx Hl IH]; [done|].
    rewrite filter_cons_True, IH; [done|].
    intros ->. by destruct (cleanSegment_spec _ Hx) as (H & _).
  - eapply Forall_impl; [exact Hall|]. intros x Hx.
    by destruct (cleanSegment_spec _ Hx) as (_ & _ & _ & H).
Qed.

Lemma list_prefixb_app l1 l2 : Path.list_prefixb l1 (l1 ++ l2) = true.
Proof.
  induction l1 as [|x l1 IH]; [done|].
  cbn [app Path.list_prefixb]. by rewrite String.eqb_refl, IH.
Qed.

Lemma requestSegments_clean requestPath :
  Forall (fun seg => String.eqb seg ".." = false) (Path.split requestPath) ->
  Forall (fun seg => cleanSegment seg = true) (requestSegments requestPath).
Proof.
  intros Hnd. unfold requestSegments.
  pose proof (split_slash_free requestPath) as Hfree.
  induction (Path.split requestPath) as [|seg segs IH]; [constructor|].
  apply Forall_cons in Hnd as [Hseg Hnd].
  apply Forall_cons in Hfree as [Hfseg Hfree].
  cbn [List.filter].
  destruct (String.eqb seg "" || String.eqb seg ".") eqn:E; cbn [negb];
    [by apply IH|].
  constructor; [|by apply IH].
  apply orb_false_iff in E as [E1 E2].
  unfold cleanSegment. by rewrite E1, E2, Hseg, Hfseg.
Qed.

(** X1. Under a root given by clean segments, a request that has no ".."
    segment always resolves: to the root followed by the request's
    segments other than empty and "." ones, a path that lies within the
    root. The working directory plays no part. *)
Theorem dotdot_free_request_resolves_inside cwd requestPath rsegs :
  Forall (fun seg => cleanSegment seg = true) rsegs ->
  Forall (fun seg => String.eqb seg ".." = false) (Path.split requestPath) ->
  let rootDir' := "/" +:+ Path.joinSegments rsegs in
  let resolved :=
    "/" +:+ Path.joinSegments (rsegs ++ requestSegments requestPath) in
  Path.normalizePath cwd requestPath rootDir' = Ok resolved
  /\ Path.within rootDir' resolved = true.
Proof.
  intros Hroot Hnd rootDir' resolved.
  pose proof (requestSegments_clean _ Hnd) as Hmore.
  assert (Habs : Path.isAbsolute rootDir' = true).
  { subst rootDir'. unfold Path.isAbsolute.
    change ("/" +:+ ?x) with (String "/" x). rewrite prefix_cons.
    destruct (ascii_dec "/" "/"); [apply prefix_empty|done]. }
  assert (Hres : forall tail,
            List.filter (fun seg => negb (String.eqb seg "" || String.eqb seg "."))
                        (Path.split tail) = requestSegments requestPath ->
            Forall (fun seg => String.eqb seg ".." = false) (Path.split tail) ->
            Path.resolve cwd [rootDir'; "." +:+ String "/" tail] = resolved).
  { intros tail Hsegs Hndt.
    rewrite resolve_under_absolute_root by done.
    subst resolved. do 2 f_equal.
    rewrite !fold_left_app.
    assert (Hfold : fold_left (Path.normalizeSegment false)
                              (Path.split rootDir') [] = rev rsegs).
    { subst rootDir'.
      change ("/" +:+ Path.joinSegments rsegs)
        with (String "/" (Path.joinSegments rsegs)).
      cbn [Path.split]. change (Ascii.eqb "/" "/") with true. cbv iota.
      cbn [fold_left]. change (Path.normalizeSegment false [] "") with (@nil string).
      destruct rsegs as [|seg rsegs]; [done|].
      rewrite split_joinSegments; [|done|].
      - rewrite normalize_clean by done. by rewrite app_nil_r.
      - eapply Forall_impl; [exact Hroot|]. intros x Hx.
        by destruct (cleanSegment_spec _ Hx) as (_ & _ & _ & H). }
    rewrite Hfold. cbn [fold_left].
    change (Path.normalizeSegment false (rev rsegs) ".") with (rev rsegs).
    rewrite normalize_without_dotdot by done. rewrite Hsegs.
    match goal with
    | |- rev (Path.normalizeSegment false ?k "") = _ =>
        change (Path.normalizeSegment false k "") with k
    end.
    by rewrite rev_app_distr, !rev_involutive. }
  assert (Hprefix : String.prefix rootDir' resolved = true).
  { subst rootDir' resolved.
    destruct (requestSegments requestPath) as [|m more].
    { rewrite app_nil_r.
      rewrite <- (append_empty_r ("/" +:+ Path.joinSegments rsegs)) at 2.
      apply prefix_app. }
    destruct rsegs as [|seg rsegs].
    { change ("/" +:+ Path.joinSegments []) with "/"%string.
      change ("/" +:+ ?x) with (String "/" x). rewrite prefix_cons.
      destruct (ascii_dec "/" "/"); [apply prefix_empty|done]. }
    rewrite joinSegments_app by done.
    rewrite <- append_assoc. apply prefix_app. }
  split.
  - unfold Path.normalizePath.
    destruct (cleanPath_rooted requestPath) as (tail & -> & Hsegs & Hndt).
    rewrite (Hres tail Hsegs (Hndt Hnd)). by rewrite Hprefix.
  - unfold Path.within. subst rootDir' resolved.
    rewrite !components_root; [apply list_prefixb_app | | done].
    by apply Forall_app.
Qed.

Lemma dotdot_free_request_resolves_inside_witness :
  Path.normalizePath "/srv" "a/./b//c.csv" "/data/export"
    = Ok "/data/export/a/b/c.csv"%string
  /\ Path.within "/data/export" "/data/export/a/b/c.csv" = true.
Proof.
  apply (dotdot_free_request_resolves_inside "/srv" "a/./b//c.csv"
           ["data"; "export"]%string).
  - repeat constructor.
  - repeat constructor.
Defined.

(** X2. Under an absolute root, every path [normalizePath] returns is
    absolute and made of clean segments only: none empty, none "." or
    "..", none with a separator inside. *)
Theorem resolved_paths_are_canonical cwd requestPath rootDir' resolved :
  Path.isAbsolute rootDir' = true ->
  Path.normalizePath cwd requestPath rootDir' = Ok resolved ->
  exists segs,
    resolved = "/" +:+ Path.joinSegments segs
    /\ Forall (fun seg => cleanSegment seg = true) segs.
Proof.
  intros Habs. unfold Path.normalizePath.
  destruct (cleanPath_rooted requestPath) as (tail & -> & _ & _).
  rewrite resolve_under_absolute_root by done.
  match goal with
  | |- context [Path.joinSegments (rev ?k)] => set (kept := k)
  end.
  destruct (negb (String.prefix rootDir' ("/" +:+ Path.joinSegments (rev kept))));
    [discriminate|].
  intros [= <-]. exists (rev kept). split; [done|].
  apply Forall_rev. apply normalize_keeps_clean; [|constructor].
  repeat (apply Forall_app; split); try apply split_slash_free;
    by repeat constructor.
Qed.

Lemma resolved_paths_are_canonical_witness :
  exists segs,
    "/data/b"%string = "/" +:+ Path.joinSegments segs
    /\ Forall (fun seg => cleanSegment seg = true) segs.
Proof.
  apply (resolved_paths_are_canonical "/srv" "/a/../b/./" "/data" "/data/b");
    reflexivity.
Defined.

(** ** Requests that only look *)

(** X3. REALPATH, STAT and LSTAT change neither the handle tables and the
    counter nor the filesystem; they make at most one filesystem call, on a
    path that passed the sandbox check; STAT and LSTAT reply with
    attributes or with the failure status, and with the failure status
    alike for a path that escapes and for a path that names nothing. *)
Theorem path_queries_are_read_only config cwd pathname st :
  (forall r, r = REALPATH pathname \/ r = STAT pathname \/ r = LSTAT pathname ->
     sess (snd (dispatch config cwd r st)) = sess st
     /\ world (snd (dispatch config cwd r st)) = world st
     /\ exists made,
          calls (snd (dispatch config cwd r st)) = calls st ++ made
          /\ (length made <= 1)%nat
          /\ forall p, (CallStat p ∈ made \/ CallLstat p ∈ made) ->
               Path.normalizePath cwd pathname (rootDir config) = Ok p)
  /\ (forall r, r = STAT pathname \/ r = LSTAT pathname ->
        fst (dispatch config cwd r st)
        = Ok (match Path.normalizePath cwd pathname (rootDir config) with
              | Ok resolved =>
                  match world_stat (world st) resolved with
                  | Ok stat => AttrsReply (attrsFromStat stat)
                  | Err _ => Status STATUS_CODE.FAILURE
                  end
              | Err _ => Status STATUS_CODE.FAILURE
              end)).
Proof.
  assert (Hnone : forall p made,
            made = [] -> (CallStat p ∈ made \/ CallLstat p ∈ made) -> False).
  { intros p made -> [H|H]; by apply elem_of_nil in H. }
  split.
  - intros r [-> | [-> | ->]]; unfold_handlers; unfold_M; simpl.
    + split; [done|]. split; [done|]. exists [].
      split; [by rewrite app_nil_r|]. split; [simpl; lia|].
      intros p H. by destruct (Hnone p [] eq_refl H).
    + destruct (Path.normalizePath cwd pathname (rootDir config)) as [p|e];
        simpl.
      * assert (Hone : forall p', CallStat p' ∈ [CallStat p]
                                  \/ CallLstat p' ∈ [CallStat p] ->
                                  Ok p = Ok p' :> Result string).
        { intros p' [H|H]; apply list_elem_of_singleton in H; congruence. }
        destruct (world_stat (world st) p); simpl;
          (split; [done|]; split; [done|]; exists [CallStat p];
           split; [done|]; split; [simpl; lia | exact Hone]).
      * split; [done|]. split; [done|]. exists [].
        split; [by rewrite app_nil_r|]. split; [simpl; lia|].
        intros p H. by destruct (Hnone p [] eq_refl H).
    + destruct (Path.normalizePath cwd pathname (rootDir config)) as [p|e];
        simpl.
      * assert (Hone : forall p', CallStat p' ∈ [CallLstat p]
                                  \/ CallLstat p' ∈ [CallLstat p] ->
                                  Ok p = Ok p' :> Result string).
        { intros p' [H|H]; apply list_elem_of_singleton in H; congruence. }
        destruct (world_stat (world st) p); simpl;
          (split; [done|]; split; [done|]; exists [CallLstat p];
           split; [done|]; split; [simpl; lia | exact Hone]).
      * split; [done|]. split; [done|]. exists [].
        split; [by rewrite app_nil_r|]. split; [simpl; lia|].
        intros p H. by destruct (Hnone p [] eq_refl H).
  - intros r [-> | ->]; unfold_handlers; unfold_M; simpl;
      destruct (Path.normalizePath cwd pathname (rootDir config)) as [p|e];
      simpl; try done; by destruct (world_stat (world st) p).
Qed.

Lemma path_queries_are_read_only_witness :
  fst (dispatch demo_config demo_cwd (STAT "/loans.csv") (start demo_world))
    = Ok (AttrsReply (attrsFromStat (file_stats 37)))
  /\ fst (dispatch demo_config demo_cwd (STAT "/../etc/passwd")
                   (start demo_world))
     = Ok (Status STATUS_CODE.FAILURE)
  /\ fst (dispatch demo_config demo_cwd (LSTAT "/missing.csv")
                   (start demo_world))
     = Ok (Status STATUS_CODE.FAILURE)
  /\ sess (snd (dispatch demo_config demo_cwd (REALPATH "/x")
                         (start demo_world))) = new_session.
Proof.
  pose proof (path_queries_are_read_only demo_config demo_cwd "/loans.csv"
                (start demo_world)) as [_ H1].
  pose proof (path_queries_are_read_only demo_config demo_cwd "/../etc/passwd"
                (start demo_world)) as [_ H2].
  pose proof (path_queries_are_read_only demo_config demo_cwd "/missing.csv"
                (start demo_world)) as [_ H3].
  pose proof (path_queries_are_read_only demo_config demo_cwd "/x"
                (start demo_world)) as [H4 _].
  split; [rewrite H1 by (by left); vm_compute; reflexivity|].
  split; [rewrite H2 by (by left); vm_compute; reflexivity|].
  split; [rewrite H3 by (by right); vm_compute; reflexivity|].
  by destruct (H4 (REALPATH "/x") (or_introl eq_refl)) as [-> _].
Defined.

(** X4. [attrsFromStat] copies mode, owner ids and size, and gives the two
    times in whole seconds: the greatest second not after the
    millisecond time, also for times before the epoch. *)
Theorem attrs_times_are_whole_seconds stat :
  mode (attrsFromStat stat) = st_mode stat
  /\ uid (attrsFromStat stat) = st_uid stat
  /\ gid (attrsFromStat stat) = st_gid stat
  /\ size (attrsFromStat stat) = st_size stat
  /\ 1000 * atime (attrsFromStat stat) <= st_atimeMs stat
       < 1000 * atime (attrsFromStat stat) + 1000
  /\ 1000 * mtime (attrsFromStat stat) <= st_mtimeMs stat
       < 1000 * mtime (attrsFromStat stat) + 1000.
Proof.
  unfold attrsFromStat. simpl. repeat split; try reflexivity;
    Z.div_mod_to_equations; lia.
Qed.

(** ** Reads *)

(** X8. With an offset and a length off the wire (unsigned, the length in
    32 bits), READ changes nothing: not the session, not the filesystem,
    not the descriptors.  A data reply is never empty and never longer
    than asked for, and it carries what the file that the handle's
    descriptor is open on holds from the offset on, whatever has become
    of the path the file was opened through. *)
Theorem read_reply_is_a_slice handle offset L st :
  0 <= offset ->
  L < 4294967296 ->
  sess (snd (on_READ handle offset L st)) = sess st
  /\ world (snd (on_READ handle offset L st)) = world st
  /\ fileHandles (snd (on_READ handle offset L st)) = fileHandles st
  /\ forall data,
       fst (on_READ handle offset L st) = Ok (DataReply data) ->
       data <> []
       /\ (Z.of_nat (length data) <= L)
       /\ exists fd d content,
            openFiles (sess st) !! handleKey handle = Some fd
            /\ fds (world st) !! fd = Some d
            /\ opened d = OnFile content
            /\ data = take (Z.to_nat L) (drop (Z.to_nat offset) content).
Proof.
  intros Hoff Hwire.
  unfold on_READ, fs_read, Buffer_alloc, MAX_LENGTH. unfold_M. simpl.
  destruct (openFiles (sess st) !! handleKey handle) as [fd|] eqn:Hf;
    [|by repeat split].
  destruct ((0 <=? L) && (L <=? 9007199254740991)) eqn:Ealloc; simpl;
    [|by repeat split].
  apply andb_prop in Ealloc as [HL0%Z.leb_le _].
  destruct (Z_lt_ge_dec L 2147483648) as [Hsmall|Hhigh].
  2: { rewrite (toInt32_high L) by lia.
       destruct (L - 4294967296 =? 0) eqn:E3; [lia|].
       destruct (L - 4294967296 <? 0) eqn:E4; [|lia]. by repeat split. }
  rewrite (toInt32_small L) by lia.
  destruct (L =? 0) eqn:E3; simpl; [by repeat split|].
  destruct (L <? 0) eqn:E4; [lia|].
  destruct (offset <? -1) eqn:E5; [lia|]. simpl.
  destruct (MAX_SAFE_INTEGER <? offset) eqn:E6; simpl; [by repeat split|].
  unfold world_read.
  destruct (fds (world st) !! fd) as [d|] eqn:Hfd; simpl; [|by repeat split].
  destruct (opened d) as [content|] eqn:Hd; simpl; [|by repeat split].
  destruct (offset =? -1) eqn:E7; [lia|]. simpl.
  destruct (take (Z.to_nat L) (drop (Z.to_nat offset) content))
    as [|b chunk] eqn:E; simpl.
  { split; [by destruct st|]. split; [by destruct (world st)|].
    split; [done|]. intros data [=]. }
  split; [done|]. split; [done|]. split; [done|].
  intros data [= <-]. split; [done|]. split.
  - rewrite <- E, length_take. lia.
  - exists fd, d, content. by rewrite E.
Qed.

(** Bytes 3 to 6 of [loans.csv], read after the path has been removed. *)
Lemma read_reply_is_a_slice_witness :
  let st := snd (run demo_config demo_cwd (start demo_world)
                     [Client (OPEN "/loans.csv" 1);
                      Outside
                        {| nodes := nodes demo_world_removed;
                           fds := <[3 := {| opened := OnFile loans_csv;
                                            position := 0 |}]> ∅;
                           next_fd := 4 |}]) in
  nodes (world st) !! "/data/loans.csv"%string = None
  /\ fst (on_READ handle0 3 4 st) = Ok (DataReply [x61; x6d; x6f; x75])
  /\ Z.of_nat (length [x61; x6d; x6f; x75]) <= 4
  /\ world (snd (on_READ handle0 3 4 st)) = world st.
Proof.
  intros st.
  destruct (read_reply_is_a_slice handle0 3 4 st) as (_ & Hworld & _ & H);
    [lia | lia |].
  assert (Hreply : fst (on_READ handle0 3 4 st)
                   = Ok (DataReply [x61; x6d; x6f; x75]))
    by (vm_compute; reflexivity).
  destruct (H _ Hreply) as (_ & Hlen & _).
  split; [vm_compute; reflexivity|].
  split; [exact Hreply|]. split; [exact Hlen | exact Hworld].
Defined.

(** ** One handle and the others *)

(** X9. READ, READDIR and CLOSE touch no table entry but the one their
    handle names: every other key finds in both tables what it found
    before. *)
Theorem requests_leave_other_handles_alone config cwd handle r st key :
  (r = READDIR handle \/ r = CLOSE handle
   \/ exists offset length, r = READ handle offset length) ->
  key <> handleKey handle ->
  openFiles (sess (snd (dispatch config cwd r st))) !! key
    = openFiles (sess st) !! key
  /\ openDirs (sess (snd (dispatch config cwd r st))) !! key
     = openDirs (sess st) !! key.
Proof.
  intros Hr Hne.
  destruct Hr as [-> | [-> | (offset & length & ->)]];
    unfold_handlers; unfold_M; simpl;
    repeat case_match; simplify_eq; simpl;
    rewrite ?lookup_insert_ne, ?lookup_delete_ne by done; done.
Qed.

Lemma requests_leave_other_handles_alone_witness :
  let st := snd (run demo_config demo_cwd (start demo_world)
                     [Client (OPENDIR "/"); Client (OPEN "/loans.csv" 1)]) in
  openFiles (sess (snd (dispatch demo_config demo_cwd (READDIR handle0) st)))
    !! "00000001"%string = Some 3.
Proof.
  intros st.
  destruct (requests_leave_other_handles_alone demo_config demo_cwd handle0
              (READDIR handle0) st "00000001") as [Hf _];
    [by left | vm_compute; discriminate |].
  rewrite Hf. vm_compute. reflexivity.
Defined.

(** X10. In every session reachable from a fresh one, no key is in both
    tables: a handle is a file handle or a directory handle, never both,
    so CLOSE's looking at [openFiles] first hides no directory. *)
Theorem handle_is_file_or_directory config cwd w evs key :
  openFiles (sess (snd (run config cwd (start w) evs))) !! key = None
  \/ openDirs (sess (snd (run config cwd (start w) evs))) !! key = None.
Proof. apply inv_disjoint, reachable_inv. Qed.

(** ** Handles the session did not issue *)

Lemma dispatch_known_keys config cwd r st key :
  is_Some (openFiles (sess (snd (dispatch config cwd r st))) !! key)
  \/ is_Some (openDirs (sess (snd (dispatch config cwd r st))) !! key) ->
  (is_Some (openFiles (sess st) !! key) \/ is_Some (openDirs (sess st) !! key))
  \/ exists h, fst (dispatch config cwd r st) = Ok (HandleReply h)
               /\ key = handleKey h.
Proof.
  destruct r; unfold_handlers; unfold_M; simpl;
    repeat case_match; simplify_eq; simpl; intros Hk; auto;
    try (destruct Hk as [Hk|Hk];
         [try (apply lookup_insert_is_Some in Hk as [<-|[_ Hk]]);
          try (apply lookup_delete_is_Some in Hk as [_ Hk]); eauto
         |try (apply lookup_insert_is_Some in Hk as [<-|[_ Hk]]);
          try (apply lookup_delete_is_Some in Hk as [_ Hk]); eauto]).
Qed.

Lemma reply_handles_app r1 r2 :
  reply_handles (r1 ++ r2) = reply_handles r1 ++ reply_handles r2.
Proof. apply flat_map_app. Qed.

Lemma run_known_keys config cwd key evs : forall st,
  is_Some (openFiles (sess (snd (run config cwd st evs))) !! key)
  \/ is_Some (openDirs (sess (snd (run config cwd st evs))) !! key) ->
  (is_Some (openFiles (sess st) !! key) \/ is_Some (openDirs (sess st) !! key))
  \/ exists h, h ∈ reply_handles (fst (run config cwd st evs))
               /\ key = handleKey h.
Proof.
  induction evs as [|ev evs IH]; intros st Hk; [by left|].
  rewrite run_cons in *. cbn [fst snd] in *. rewrite reply_handles_app.
  destruct (IH _ Hk) as [Hold|(h & Hin & ->)].
  - destruct ev as [r|w|i]; [|by left|];
      [|cbn [apply_event snd] in Hold;
        destruct (finalize_keeps i st) as [Hs _]; rewrite Hs in Hold;
        by left].
    cbn [apply_event] in *. unfold handle_request in *.
    pose proof (dispatch_known_keys config cwd r st key) as Hd.
    destruct (dispatch config cwd r st) as [[reply|e] st']; cbn [fst snd] in *.
    + destruct (Hd Hold) as [?|(h & [= ->] & ->)]; [by left|].
      right. exists h. split; [|done]. apply elem_of_app. left.
      simpl. apply list_elem_of_here.
    + destruct (Hd Hold) as [?|(h & [=] & _)]. by left.
  - right. exists h. split; [|done]. apply elem_of_app. by right.
Qed.

(** X5. A handle the session has not issued opens nothing: whatever came
    before, READ, READDIR and CLOSE of a handle that is not among the
    handles this session replied with are answered with the failure
    status and change nothing. *)
Theorem unissued_handles_are_refused config cwd w evs handle :
  handle ∉ reply_handles (fst (run config cwd (start w) evs)) ->
  let st := snd (run config cwd (start w) evs) in
  (forall offset length,
      on_READ handle offset length st = (Ok (Status STATUS_CODE.FAILURE), st))
  /\ on_READDIR handle st = (Ok (Status STATUS_CODE.FAILURE), st)
  /\ on_CLOSE handle st = (Ok (Status STATUS_CODE.FAILURE), st).
Proof.
  intros Hnot st.
  assert (Hunknown : ~ (is_Some (openFiles (sess st) !! handleKey handle)
                        \/ is_Some (openDirs (sess st) !! handleKey handle))).
  { intros Hk. destruct (run_known_keys _ _ _ _ _ Hk) as [[[? H]|[? H]]|H].
    - simpl in H. by rewrite lookup_empty in H.
    - simpl in H. by rewrite lookup_empty in H.
    - destruct H as (h & Hin & Heq). apply handleKey_inj in Heq. by subst. }
  apply unknown_handle_refused.
  - destruct (openFiles (sess st) !! handleKey handle) eqn:E; [|done].
    exfalso. apply Hunknown. left. eauto.
  - destruct (openDirs (sess st) !! handleKey handle) eqn:E; [|done].
    exfalso. apply Hunknown. right. eauto.
Qed.

(** A handle of the wrong size, and the number of a handle not yet
    issued. *)
Lemma unissued_handles_are_refused_witness :
  let st := snd (run demo_config demo_cwd (start demo_world)
                     [Client (OPEN "/loans.csv" 1)]) in
  fst (on_READ [x00; x00; x00] 0 10 st) = Ok (Status STATUS_CODE.FAILURE)
  /\ fst (on_CLOSE [x00; x00; x00; x01] st) = Ok (Status STATUS_CODE.FAILURE).
Proof.
  intros st. split.
  - destruct (unissued_handles_are_refused demo_config demo_cwd demo_world
                [Client (OPEN "/loans.csv" 1)] [x00; x00; x00]) as (H & _).
    + vm_compute. intros H. apply list_elem_of_singleton in H. discriminate.
    + subst st. by rewrite H.
  - destruct (unissued_handles_are_refused demo_config demo_cwd demo_world
                [Client (OPEN "/loans.csv" 1)] [x00; x00; x00; x01])
      as (_ & _ & H).
    + vm_compute. intros H. apply list_elem_of_singleton in H. discriminate.
    + subst st. by rewrite H.
Defined.

(** ** The handle counter *)

(** What a request does to the counter: nothing, with no handle in the
    reply; or one step, with the handle that encodes the old value in the
    reply; or one step with no handle, when the old value no longer fits. *)
Lemma dispatch_count config cwd r st :
  let c := handleCount (sess st) in
  let c' := handleCount (sess (snd (dispatch config cwd r st))) in
  (c' = c /\ forall h, fst (dispatch config cwd r st) <> Ok (HandleReply h))
  \/ (exists h, fst (dispatch config cwd r st) = Ok (HandleReply h)
                /\ writeUInt32BE c = Ok h /\ c' = c + 1)
  \/ (c' = js_succ c /\ (exists e, writeUInt32BE c = Err e)
      /\ forall h, fst (dispatch config cwd r st) <> Ok (HandleReply h)).
Proof.
  destruct r; unfold_handlers; unfold_M; simpl;
    repeat case_match; simplify_eq; simpl;
    first
      [ left; split; [reflexivity | intros h Hh; discriminate Hh]
      | right; left; eexists; split; [reflexivity|];
        split; [first [reflexivity | eassumption]
               | by eapply js_succ_in_range]
      | right; right; split; [reflexivity|];
        split; [eauto | intros h Hh; discriminate Hh] ].
Qed.

Lemma no_handle_reply res :
  (forall h, res <> Ok (HandleReply h)) ->
  reply_handles (match res with Ok reply => [reply] | Err _ => [] end) = [].
Proof.
  intros Hno. destruct res as [[code|a|h|entries|data]|e]; try done.
  by destruct (Hno h).
Qed.

Lemma run_exhausted config cwd evs : forall st,
  4294967295 < handleCount (sess st) ->
  reply_handles (fst (run config cwd st evs)) = [].
Proof.
  induction evs as [|ev evs IH]; intros st Hc; [done|].
  rewrite run_cons. cbn [fst]. rewrite reply_handles_app.
  pose proof (handleCount_step _ _ (apply_event_step config cwd st ev)) as Hle.
  rewrite IH by lia. rewrite app_nil_r.
  pose proof (apply_event_handles config cwd st ev) as Hev.
  destruct (fst (apply_event config cwd st ev)) as [[code|a|h|entries|data]|];
    try done.
  destruct Hev as [Hw _]. apply writeUInt32BE_ok in Hw. lia.
Qed.

Lemma run_ids config cwd evs : forall st,
  0 <= handleCount (sess st) ->
  Forall2 (fun h c => writeUInt32BE c = Ok h)
          (reply_handles (fst (run config cwd st evs)))
          (seqZ (handleCount (sess st))
                (Z.of_nat (length (reply_handles (fst (run config cwd st evs)))))).
Proof.
  induction evs as [|ev evs IH]; intros st Hc; [constructor|].
  rewrite run_cons. cbn [fst]. rewrite reply_handles_app.
  destruct ev as [r|w|i].
  - cbn [apply_event]. unfold handle_request.
    pose proof (dispatch_count config cwd r st) as Hd. cbv zeta in Hd.
    destruct (dispatch config cwd r st) as [res st'] eqn:Ed.
    cbn [fst snd] in *.
    destruct Hd as [[Hsame Hno]|[(h & -> & Hw & Hnext)|(Hnext & [e He] & Hno)]].
    + apply no_handle_reply in Hno.
      replace (match (match res with
                      | Ok reply => (Some reply, st')
                      | Err _ => (None, st')
                      end).1 with
               | Some r0 => [r0]
               | None => []
               end)
        with (match res with Ok reply => [reply] | Err _ => [] end)
        by (by destruct res).
      rewrite Hno. cbn [app].
      replace (match res with
               | Ok reply => (Some reply, st')
               | Err _ => (None, st')
               end).2 with st' by (by destruct res).
      rewrite <- Hsame. apply IH. lia.
    + cbn [fst snd]. change (reply_handles [HandleReply h]) with [h].
      cbn [app length]. rewrite Nat2Z.inj_succ, seqZ_cons by lia.
      constructor; [done|]. rewrite Z.pred_succ.
      replace (Z.succ (handleCount (sess st))) with (handleCount (sess st'))
        by lia.
      apply IH. lia.
    + assert (4294967295 < handleCount (sess st)).
      { unfold writeUInt32BE in He.
        destruct (0 <=? handleCount (sess st)) eqn:E1;
          destruct (handleCount (sess st) <=? 4294967295) eqn:E2;
          simpl in He; try discriminate; lia. }
      pose proof (js_succ_ge (handleCount (sess st))).
      apply no_handle_reply in Hno.
      replace (match (match res with
                      | Ok reply => (Some reply, st')
                      | Err _ => (None, st')
                      end).1 with
               | Some r0 => [r0]
               | None => []
               end)
        with (match res with Ok reply => [reply] | Err _ => [] end)
        by (by destruct res).
      replace (match res with
               | Ok reply => (Some reply, st')
               | Err _ => (None, st')
               end).2 with st' by (by destruct res).
      rewrite Hno, (run_exhausted config cwd evs st') by lia.
      constructor.
  - cbn [apply_event fst snd app reply_handles flat_map].
    by apply (IH {| sess := sess st; world := w; calls := calls st;
                    fileHandles := fileHandles st |}).
  - cbn [apply_event fst snd app reply_handles flat_map].
    destruct (finalize_keeps i st) as [Hs _]. rewrite <- Hs.
    apply IH. by rewrite Hs.
Qed.

(** X6. The handles of a session are numbered without gaps: the n-th
    handle issued (counting from zero) is the big-endian encoding of n. *)
Theorem handle_ids_are_consecutive config cwd w evs :
  Forall2 (fun h c => writeUInt32BE c = Ok h)
          (reply_handles (fst (run config cwd (start w) evs)))
          (seqZ 0 (Z.of_nat
                     (length (reply_handles
                                (fst (run config cwd (start w) evs)))))).
Proof. apply (run_ids config cwd evs (start w)). simpl. lia. Qed.

(** X7. Once the counter has passed 2^32 - 1 the session issues no handle
    any more, whatever is requested and whatever else happens.  An OPEN of
    something that exists is then answered with the failure status and
    leaves both tables as they were.  The descriptor it had opened by then
    got no handle; it stays open until the collector gets to the FileHandle
    left behind, and is closed then. *)
Theorem exhausted_counter_issues_nothing config cwd st :
  4294967295 < handleCount (sess st) ->
  (forall evs, reply_handles (fst (run config cwd st evs)) = [])
  /\ (forall filename flags resolved,
        js_bitand flags OPEN_MODE.READ <> 0 ->
        Path.normalizePath cwd filename (rootDir config) = Ok resolved ->
        is_Some (nodes (world st) !! resolved) ->
        let st' := snd (on_OPEN config cwd filename flags st) in
        fst (on_OPEN config cwd filename flags st)
          = Ok (Status STATUS_CODE.FAILURE)
        /\ openFiles (sess st') = openFiles (sess st)
        /\ openDirs (sess st') = openDirs (sess st)
        /\ is_Some (fds (world st') !! next_fd (world st))
        /\ fileHandles st' = fileHandles st ++ [next_fd (world st)]
        /\ fds (world (finalize (length (fileHandles st)) st'))
             !! next_fd (world st) = None).
Proof.
  intros Hc. split; [intros evs; by apply run_exhausted|].
  intros filename flags resolved Hflags Hres [node Hnode].
  unfold finalize.
  unfold on_OPEN, createHandle, openFiles_set, fsp_open, new_FileHandle,
    world_open.
  unfold_M. simpl.
  destruct (js_bitand flags OPEN_MODE.READ =? 0) eqn:E; [lia|].
  rewrite Hres. simpl. rewrite Hnode. simpl.
  unfold writeUInt32BE.
  destruct (handleCount (sess st) <=? 4294967295) eqn:E2; [lia|].
  rewrite andb_false_r. simpl.
  split; [done|]. split; [done|]. split; [done|].
  split; [rewrite lookup_insert_eq; eauto|]. split; [done|].
  rewrite list_lookup_middle by done. simpl.
  unfold world_close. simpl. rewrite lookup_insert_eq. simpl.
  apply lookup_delete_eq.
Qed.

Lemma exhausted_counter_issues_nothing_witness :
  let st := {| sess := {| openFiles := ∅; openDirs := ∅;
                          handleCount := 4294967296 |};
               world := demo_world; calls := []; fileHandles := [] |} in
  fst (run demo_config demo_cwd st
           [Client (OPEN "/loans.csv" 1); Client (OPENDIR "/")])
    = [Status STATUS_CODE.FAILURE; Status STATUS_CODE.FAILURE]
  /\ fileHandles (snd (on_OPEN demo_config demo_cwd "/loans.csv" 1 st)) = [3]
  /\ fds (world (snd (run demo_config demo_cwd st
                          [Client (OPEN "/loans.csv" 1); Collect 0])))
       !! 3 = None.
Proof.
  intros st.
  destruct (exhausted_counter_issues_nothing demo_config demo_cwd st)
    as [_ Hleak]; [simpl; lia|].
  split; [vm_compute; reflexivity|].
  destruct (Hleak "/loans.csv" 1 "/data/loans.csv"%string)
    as (_ & _ & _ & _ & Hleft & Hgone);
    [vm_compute; discriminate | reflexivity | vm_compute; eauto |].
  split; [exact Hleft | exact Hgone].
Defined.

(** X11. OPEN followed at once by CLOSE of the handle received: the CLOSE
    is acknowledged, and both tables, the descriptors and the files are
    what they were before the OPEN (only the counter has moved on); the
    FileHandle of the OPEN is left behind, holding the number of a
    descriptor that is closed already.  When the collector gets to that
    FileHandle between the two requests instead, the descriptor is closed
    under the handle: the CLOSE is answered with the failure status, and
    the handle has left the table all the same. *)
Theorem open_then_close_restores_tables config cwd w evs filename flags handle :
  let st := snd (run config cwd (start w) evs) in
  fds (world st) !! next_fd (world st) = None ->
  fst (on_OPEN config cwd filename flags st) = Ok (HandleReply handle) ->
  let st' := snd (on_OPEN config cwd filename flags st) in
  let closed := on_CLOSE handle st' in
  let late := on_CLOSE handle (finalize (length (fileHandles st)) st') in
  (fst closed = Ok (Status STATUS_CODE.OK)
   /\ openFiles (sess (snd closed)) = openFiles (sess st)
   /\ openDirs (sess (snd closed)) = openDirs (sess st)
   /\ fds (world (snd closed)) = fds (world st)
   /\ nodes (world (snd closed)) = nodes (world st)
   /\ fileHandles (snd closed) = fileHandles st ++ [next_fd (world st)])
  /\ (fst late = Ok (Status STATUS_CODE.FAILURE)
      /\ openFiles (sess (snd late)) = openFiles (sess st)
      /\ openDirs (sess (snd late)) = openDirs (sess st)
      /\ fds (world (snd late)) = fds (world st)
      /\ fileHandles (snd late) = fileHandles st).
Proof.
  intros st Hfresh Hopen st' closed late.
  destruct (open_file_effect _ _ _ _ _ _ Hopen)
    as (resolved & node & _ & _ & Hw & Hst').
  assert (Hkey : openFiles (sess st) !! handleKey handle = None).
  { destruct (openFiles (sess st) !! handleKey handle) as [fd|] eqn:E; [|done].
    exfalso. eapply fresh_key_not_issued; [exact Hw|].
    eapply inv_files; [apply reachable_inv | exact E]. }
  split.
  - subst closed st'. rewrite Hst'.
    rewrite (close_file_effect handle (next_fd (world st)))
      by (simpl; apply lookup_insert_eq).
    unfold fs_close, world_close. unfold_M. simpl.
    rewrite lookup_insert_eq. simpl.
    by rewrite !delete_insert_id.
  - subst late st'. rewrite Hst'.
    match goal with
    | |- context [finalize ?i ?s] =>
        assert (Hfin : finalize i s =
                  {| sess := sess s;
                     world := {| nodes := nodes (world st);
                                 fds := fds (world st);
                                 next_fd := next_fd (world st) + 1 |};
                     calls := calls s;
                     fileHandles := fileHandles st |})
    end.
    { unfold finalize, world_close. simpl.
      rewrite list_lookup_middle by done. simpl.
      rewrite lookup_insert_eq. simpl.
      rewrite delete_insert_id by done.
      by rewrite delete_middle, app_nil_r. }
    rewrite Hfin.
    rewrite (close_file_effect handle (next_fd (world st)))
      by (simpl; apply lookup_insert_eq).
    unfold fs_close, world_close. unfold_M. simpl.
    rewrite Hfresh. simpl.
    by rewrite !delete_insert_id.
Qed.

Lemma open_then_close_restores_tables_witness :
  let st := snd (run demo_config demo_cwd (start demo_world)
                     [Client (OPENDIR "/")]) in
  let opened' := on_OPEN demo_config demo_cwd "/loans.csv" 1 st in
  fst opened' = Ok (HandleReply [x00; x00; x00; x01])
  /\ openFiles (sess (snd (on_CLOSE [x00; x00; x00; x01] (snd opened')))) = ∅
  /\ fds (world (snd (on_CLOSE [x00; x00; x00; x01] (snd opened')))) = ∅
  /\ fst (on_CLOSE [x00; x00; x00; x01] (finalize 0 (snd opened')))
     = Ok (Status STATUS_CODE.FAILURE).
Proof.
  intros st opened'.
  assert (Hopen : fst opened' = Ok (HandleReply [x00; x00; x00; x01]))
    by (vm_compute; reflexivity).
  destruct (open_then_close_restores_tables demo_config demo_cwd demo_world
              [Client (OPENDIR "/")] "/loans.csv" 1 [x00; x00; x00; x01])
    as ((_ & Hf & _ & Hfd & _) & (Hlate & _));
    [vm_compute; reflexivity | exact Hopen |].
  split; [exact Hopen|]. split; [exact Hf|]. split; [exact Hfd|].
  exact Hlate.
Defined.

(** ** Start-up: failures, bind errors and restarts *)

Lemma pending_means_not_running l p :
  lifecycle_inv l -> promises l !! p = Some Pending ->
  startingPromise l = Some p /\ serverInstance l = None.
Proof.
  intros [Hp Ho Hi] Hpend. pose proof (Hp _ Hpend) as Hsp. split; [done|].
  destruct (serverInstance l) as [s|] eqn:Es; [|done].
  destruct (Ho s Listening (Hi s eq_refl) eq_refl) as (p' & Hsp' & Hf).
  congruence.
Qed.

(** X12. A start attempt that fails, in the key store, in creating the
    root directory, in constructing the server or in [listen] throwing,
    rejects its promise and clears [startingPromise]; the next call then
    begins a new attempt with a promise of its own, instead of handing
    out the rejected one. *)
Theorem failed_start_is_retried evs p env e :
  let l := snd (lifecycle_run initial evs) in
  promises l !! p = Some Pending ->
  (prepare env = Err e
   \/ exists key, prepare env = Ok key /\ server_listen env = Err e) ->
  let l' := attempt_completes p env l in
  let p' := length (promises l) in
  promises l' !! p = Some (Rejected e)
  /\ bindAttempts l' = bindAttempts l
  /\ fst (startMockSftpServer l') = ReturnsPromise p'
  /\ p' <> p
  /\ promises (snd (startMockSftpServer l')) !! p' = Some Pending
  /\ promises (snd (startMockSftpServer l')) !! p = Some (Rejected e)
  /\ startingPromise (snd (startMockSftpServer l')) = Some p'.
Proof.
  intros l Hpend Hfail l' p'.
  assert (Hinv : lifecycle_inv l) by apply lifecycle_run_inv, initial_inv.
  destruct (pending_means_not_running l p Hinv Hpend) as [Hsp Hsi].
  pose proof (lookup_lt_Some _ _ _ Hpend) as Hlt.
  assert (Hshape : promises l' = <[p := Rejected e]> (promises l)
                   /\ startingPromise l' = None /\ serverInstance l' = None
                   /\ bindAttempts l' = bindAttempts l).
  { subst l'. unfold attempt_completes. rewrite Hpend.
    destruct Hfail as [->|(key & -> & ->)]; simpl; by rewrite Hsi. }
  destruct Hshape as (Hpr & Hsp' & Hsi' & Hba).
  assert (Hlen : length (promises l') = p')
    by (rewrite Hpr; apply length_insert).
  unfold startMockSftpServer. rewrite Hsi', Hsp'. simpl. rewrite Hlen.
  repeat split; try done.
  - rewrite Hpr. by apply list_lookup_insert_eq.
  - subst p'. lia.
  - rewrite lookup_app_r by lia. by rewrite Hlen, Nat.sub_diag.
  - rewrite lookup_app_l by lia. rewrite Hpr.
    by apply list_lookup_insert_eq.
Qed.

Lemma failed_start_is_retried_witness :
  fst (lifecycle_run initial
         [Call; Call; AttemptCompletes 0 readonly_key_start; Call; Call])
  = [ReturnsPromise 0; ReturnsPromise 0; ReturnsPromise 1; ReturnsPromise 1]
  /\ fst (startMockSftpServer
            (attempt_completes 0 readonly_key_start
               (snd (lifecycle_run initial [Call; Call]))))
     = ReturnsPromise 1.
Proof.
  split; [vm_compute; reflexivity|].
  destruct (failed_start_is_retried [Call; Call] 0 readonly_key_start
              (FsError EACCES)) as (_ & _ & H & _);
    [reflexivity | left; reflexivity | exact H].
Defined.

(** X13. A bind that fails after [listen] has returned is only logged:
    the promise stays fulfilled with the server that is not listening, so
    until that server is closed nothing changes any more; every call
    returns that promise and no new attempt is made. *)
Theorem bind_error_is_never_retried evs s evs' :
  let l := snd (lifecycle_run initial evs) in
  state_of l s = Some ListenPending ->
  forallb (fun ev => negb (is_close ev)) evs' = true ->
  let l1 := listen_error s l in
  snd (lifecycle_run l1 evs') = l1
  /\ state_of l1 s = Some ListenFailed
  /\ serverInstance l1 = None
  /\ exists p, promises l1 !! p = Some (Fulfilled s)
               /\ Forall (fun r => r = ReturnsPromise p)
                         (fst (lifecycle_run l1 evs')).
Proof.
  intros l Hs Hevs l1.
  assert (Hinv : lifecycle_inv l) by apply lifecycle_run_inv, initial_inv.
  pose proof Hinv as [Hp Ho Hi].
  destruct (Ho s ListenPending Hs eq_refl) as (p & Hsp & Hf).
  assert (Hsi : serverInstance l = None).
  { destruct (serverInstance l) as [s0|] eqn:Es; [|done].
    pose proof (Hi s0 eq_refl) as Hs0.
    destruct (Ho s0 Listening Hs0 eq_refl) as (p0 & Hsp0 & Hf0).
    assert (s0 = s) by congruence. subst s0. congruence. }
  assert (Hl1 : l1 = {| serverInstance := None; startingPromise := Some p;
                        promises := promises l;
                        servers := set_state s ListenFailed (servers l);
                        bindAttempts := bindAttempts l |}).
  { subst l1. unfold listen_error. by rewrite Hs, Hsi, Hsp. }
  assert (Hstate : forall s', state_of l1 s' <> Some ListenPending).
  { intros s'. rewrite Hl1, state_of_update.
    destruct (decide (s = s')) as [<-|Hne]; [by rewrite Hs|].
    intros Hs'. destruct (Ho s' ListenPending Hs' eq_refl) as (p' & Hsp' & Hf').
    congruence. }
  assert (Hnopending : forall p', promises l1 !! p' <> Some Pending).
  { intros p'. rewrite Hl1. simpl. intros Hpend.
    pose proof (Hp _ Hpend). congruence. }
  assert (Hstep : forall ev, is_close ev = false ->
            lifecycle_step l1 ev = (match ev with
                                    | Call => Some (ReturnsPromise p)
                                    | _ => None
                                    end, l1)).
  { intros [|p' env|s'|s'|s'] Hev; simpl; try done.
    - rewrite Hl1. reflexivity.
    - unfold attempt_completes. pose proof (Hnopending p').
      by destruct (promises l1 !! p') as [[| |]|].
    - unfold listen_callback. pose proof (Hstate s').
      by destruct (state_of l1 s') as [[| | | |]|].
    - unfold listen_error. pose proof (Hstate s').
      by destruct (state_of l1 s') as [[| | | |]|]. }
  assert (Hrun : snd (lifecycle_run l1 evs') = l1
                 /\ Forall (fun r => r = ReturnsPromise p)
                           (fst (lifecycle_run l1 evs'))).
  { clear -Hstep Hevs. induction evs' as [|ev evs' IH]; [by split|].
    simpl in Hevs. apply andb_prop in Hevs as [Hev Hevs].
    apply negb_true_iff in Hev.
    rewrite lifecycle_run_cons, (Hstep ev Hev). cbn [fst snd].
    destruct (IH Hevs) as [IH1 IH2]. split; [done|].
    apply Forall_app. split; [|done]. destruct ev; by repeat constructor. }
  destruct Hrun as [Hfinal Hcalls].
  split; [done|]. split.
  { rewrite Hl1, state_of_update, decide_True by done. by rewrite Hs. }
  split; [by rewrite Hl1|].
  exists p. split; [by rewrite Hl1|done].
Qed.

Lemma bind_error_is_never_retried_witness :
  let l1 := listen_error 0
              (snd (lifecycle_run initial
                      [Call; AttemptCompletes 0 unreadable_key_start])) in
  snd (lifecycle_run l1 [Call; ListenCallback 0; Call]) = l1
  /\ bindAttempts l1 = 1%nat.
Proof.
  intros l1.
  destruct (bind_error_is_never_retried
              [Call; AttemptCompletes 0 unreadable_key_start] 0
              [Call; ListenCallback 0; Call]) as (H & _);
    [reflexivity | reflexivity |].
  split; [exact H | reflexivity].
Defined.

(** X14. When the running server is closed, both variables are cleared
    and no server is left bound or being bound; the next call begins a
    new start attempt. *)
Theorem close_allows_restart evs s :
  let l := snd (lifecycle_run initial evs) in
  serverInstance l = Some s ->
  let l' := close_event s l in
  serverInstance l' = None
  /\ startingPromise l' = None
  /\ state_of l' s = Some Closed
  /\ (forall s' info, servers l' !! s' = Some info -> is_live info = false)
  /\ fst (startMockSftpServer l') = ReturnsPromise (length (promises l))
  /\ promises (snd (startMockSftpServer l')) !! length (promises l)
     = Some Pending.
Proof.
  intros l Hsi l'.
  assert (Hinv : lifecycle_inv l) by apply lifecycle_run_inv, initial_inv.
  pose proof Hinv as [Hp Ho Hi].
  pose proof (Hi s Hsi) as Hs.
  destruct (Ho s Listening Hs eq_refl) as (p & Hsp & Hf).
  assert (Hl' : l' = {| serverInstance := None; startingPromise := None;
                        promises := promises l;
                        servers := set_state s Closed (servers l);
                        bindAttempts := bindAttempts l |}).
  { subst l'. unfold close_event. by rewrite Hs. }
  rewrite Hl'. simpl. split; [done|]. split; [done|]. split.
  { rewrite state_of_update, decide_True by done. by rewrite Hs. }
  split.
  - intros s' info Hinfo.
    assert (Hst : state_of l' s' = Some (state info))
      by (rewrite Hl'; unfold state_of; simpl; by rewrite Hinfo).
    rewrite Hl', state_of_update in Hst.
    destruct (decide (s = s')) as [<-|Hne].
    + rewrite Hs in Hst. injection Hst as Hst. unfold is_live. by rewrite <- Hst.
    + unfold is_live. destruct (state info) eqn:Ei; try done.
      * destruct (Ho s' ListenPending Hst eq_refl) as (p' & Hsp' & Hf').
        congruence.
      * destruct (Ho s' Listening Hst eq_refl) as (p' & Hsp' & Hf').
        congruence.
  - unfold startMockSftpServer. simpl. split; [done|].
    rewrite lookup_app_r by lia. by rewrite Nat.sub_diag.
Qed.

Lemma close_allows_restart_witness :
  fst (lifecycle_run initial
         [Call; AttemptCompletes 0 unreadable_key_start; ListenCallback 0;
          Call; CloseEvent 0; Call])
  = [ReturnsPromise 0; ReturnsInstance 0; ReturnsPromise 1]
  /\ serverInstance
       (close_event 0
          (snd (lifecycle_run initial
                  [Call; AttemptCompletes 0 unreadable_key_start;
                   ListenCallback 0]))) = None.
Proof.
  split; [vm_compute; reflexivity|].
  destruct (close_allows_restart
              [Call; AttemptCompletes 0 unreadable_key_start; ListenCallback 0]
              0) as (H & _); [reflexivity | exact H].
Defined.

(** ** The scheduler's guard *)





(** ** Grouping loans *)

Section LoansFacts.

Context {number : Type} (toLowerCase : string -> string).
#[local] Abbreviation Loan := (LoanRecord number).

(** Pushing onto a map whose entry for each key is [F] of the key. *)
Lemma pushLoan_spec (F : string -> list Loan) bank (loan : Loan) : forall banks,
  NoDup banks ->
  (bank ∉ banks -> F bank = []) ->
  pushLoan ((fun b => (b, F b)) <$> banks) bank loan
  = (fun b => (b, F b ++ (if decide (bank = b) then [loan] else [])))
      <$> (if decide (bank ∈ banks) then banks else banks ++ [bank]).
Proof.
  induction banks as [|b banks IH]; intros Hnd Hnew.
  - rewrite decide_False by apply not_elem_of_nil. simpl.
    rewrite decide_True by done. rewrite Hnew by apply not_elem_of_nil. done.
  - apply NoDup_cons in Hnd as [Hb Hnd]. cbn [fmap list_fmap pushLoan].
    destruct (String.eqb_spec b bank) as [->|Hne].
    + rewrite decide_True by apply list_elem_of_here.
      cbn [fmap list_fmap]. rewrite decide_True by done. f_equal.
      apply list_fmap_ext. intros i b' Hb'.
      rewrite decide_False; [by rewrite app_nil_r|].
      intros ->. apply Hb. by eapply list_elem_of_lookup_2.
    + rewrite IH; [|done|].
      * destruct (decide (bank ∈ banks)) as [Hin|Hnin].
        -- rewrite decide_True by (by apply list_elem_of_further).
           cbn [fmap list_fmap]. rewrite decide_False by done.
           by rewrite app_nil_r.
        -- rewrite decide_False
             by (intros [?|?]%elem_of_cons; [congruence|done]).
           cbn [app fmap list_fmap]. rewrite decide_False by done.
           by rewrite app_nil_r.
      * intros Hnin. apply Hnew. intros [?|?]%elem_of_cons; [congruence|done].
Qed.

Lemma loansOf_snoc (loans : list Loan) loan bank :
  loansOf toLowerCase (loans ++ [loan]) bank
  = loansOf toLowerCase loans bank
      ++ (if decide (bankOf toLowerCase loan = bank) then [loan] else []).
Proof.
  unfold loansOf. rewrite filter_app. reflexivity.
Qed.

Lemma distinctBanks_snoc (loans : list Loan) loan :
  distinctBanks toLowerCase (loans ++ [loan])
  = if decide (bankOf toLowerCase loan ∈ distinctBanks toLowerCase loans)
    then distinctBanks toLowerCase loans
    else distinctBanks toLowerCase loans ++ [bankOf toLowerCase loan].
Proof. unfold distinctBanks. by rewrite fold_left_app. Qed.

Lemma distinctBanks_facts (loans : list Loan) :
  NoDup (distinctBanks toLowerCase loans)
  /\ forall bank, bank ∈ distinctBanks toLowerCase loans
                  <-> exists loan, loan ∈ loans
                                   /\ bankOf toLowerCase loan = bank.
Proof.
  induction loans as [|loan loans [IHnd IHin]] using rev_ind.
  - split; [constructor|]. intros bank. split.
    + by intros H%elem_of_nil.
    + by intros (loan & H%elem_of_nil & _).
  - rewrite distinctBanks_snoc.
    destruct (decide (bankOf toLowerCase loan ∈ distinctBanks toLowerCase loans))
      as [Hin|Hnin].
    + split; [done|]. intros bank. rewrite IHin. split.
      * intros (l & Hl & Hb). exists l. split; [|done].
        apply elem_of_app. by left.
      * intros (l & [Hl|Hl%list_elem_of_singleton]%elem_of_app & Hb).
        -- eauto.
        -- subst l. apply IHin. by rewrite <- Hb.
    + split.
      * apply NoDup_app. split; [done|]. split; [|apply NoDup_singleton].
        intros x Hx Hx'%list_elem_of_singleton. by subst x.
      * intros bank. rewrite elem_of_app, IHin, list_elem_of_singleton. split.
        -- intros [(l & Hl & Hb)| ->].
           ++ exists l. split; [|done]. apply elem_of_app. by left.
           ++ exists loan. split; [|done]. apply elem_of_app. right.
              by apply list_elem_of_singleton.
        -- intros (l & [Hl|Hl%list_elem_of_singleton]%elem_of_app & Hb).
           ++ left. eauto.
           ++ right. by subst l.
Qed.

Lemma groupLoansByBank_snoc (loans : list Loan) loan :
  groupLoansByBank toLowerCase (loans ++ [loan])
  = pushLoan (groupLoansByBank toLowerCase loans)
             (bankOf toLowerCase loan) loan.
Proof. unfold groupLoansByBank. by rewrite fold_left_app. Qed.

Lemma groupLoansByBank_spec (loans : list Loan) :
  groupLoansByBank toLowerCase loans
  = (fun bank => (bank, loansOf toLowerCase loans bank))
      <$> distinctBanks toLowerCase loans.
Proof.
  induction loans as [|loan loans IH] using rev_ind; [done|].
  destruct (distinctBanks_facts loans) as [Hnd Hin].
  rewrite groupLoansByBank_snoc, IH, distinctBanks_snoc.
  rewrite pushLoan_spec; [|done|].
  - apply list_fmap_ext. intros i bank _. by rewrite loansOf_snoc.
  - intros Hnin. unfold loansOf.
    destruct (filter (fun l => bankOf toLowerCase l = bankOf toLowerCase loan)
                     loans) as [|l ls] eqn:E; [done|].
    exfalso. apply Hnin, Hin. exists l.
    assert (Hl : l ∈ filter (fun l => bankOf toLowerCase l
                                      = bankOf toLowerCase loan) loans)
      by (rewrite E; apply list_elem_of_here).
    apply list_elem_of_filter in Hl as [? ?]. done.
Qed.

(** Cutting a list into the classes of a key, one class per key, loses
    and repeats nothing. *)
Lemma classes_partition (loans : list Loan) : forall banks,
  NoDup banks ->
  (forall loan, loan ∈ loans -> bankOf toLowerCase loan ∈ banks) ->
  concat (loansOf toLowerCase loans <$> banks) ≡ₚ loans.
Proof.
  induction loans as [|loan loans IH]; intros banks Hnd Hall.
  - clear Hnd Hall. induction banks as [|b banks IHb]; [done|].
    simpl. exact IHb.
  - assert (Hin : bankOf toLowerCase loan ∈ banks)
      by apply Hall, list_elem_of_here.
    apply list_elem_of_split in Hin as (b1 & b2 & ->).
    apply NoDup_app in Hnd as (Hnd1 & Hdisj & Hnd2).
    apply NoDup_cons in Hnd2 as [Hnot2 Hnd2].
    assert (Hother : forall bs : list string, bankOf toLowerCase loan ∉ bs ->
              loansOf toLowerCase (loan :: loans) <$> bs
              = loansOf toLowerCase loans <$> bs).
    { intros bs Hbs. apply list_fmap_ext. intros i b Hb.
      unfold loansOf. rewrite filter_cons. rewrite decide_False; [done|].
      intros <-. apply Hbs. by eapply list_elem_of_lookup_2. }
    assert (Hperm : concat (loansOf toLowerCase loans
                              <$> b1 ++ bankOf toLowerCase loan :: b2)
                    ≡ₚ loans).
    { apply IH.
      - apply NoDup_app. split; [done|]. split; [done|]. by constructor.
      - intros l Hl. apply Hall. by apply list_elem_of_further. }
    rewrite fmap_app, fmap_cons, concat_app, concat_cons in Hperm.
    rewrite fmap_app, fmap_cons, concat_app, concat_cons.
    rewrite (Hother b1), (Hother b2); [|done|].
    + unfold loansOf at 2. rewrite filter_cons, decide_True by done.
      fold (loansOf toLowerCase loans (bankOf toLowerCase loan)).
      rewrite <- app_comm_cons, <- Permutation_middle. by constructor.
    + intros Hin1. by apply (Hdisj _ Hin1), list_elem_of_here.
Qed.

(** X16. [groupLoansByBank] gives one group per lower-cased bank name, in
    the order in which the banks first appear; a group holds exactly the
    loans of its bank, in the order they came, and is never empty. *)
Theorem groups_are_the_loans_of_each_bank (loans : list Loan) :
  groupLoansByBank toLowerCase loans
  = (fun bank => (bank, loansOf toLowerCase loans bank))
      <$> distinctBanks toLowerCase loans
  /\ NoDup (fst <$> groupLoansByBank toLowerCase loans)
  /\ (forall bank group,
        (bank, group) ∈ groupLoansByBank toLowerCase loans ->
        group <> []
        /\ group = loansOf toLowerCase loans bank
        /\ exists loan, loan ∈ loans /\ bankOf toLowerCase loan = bank).
Proof.
  pose proof (groupLoansByBank_spec loans) as Hspec.
  destruct (distinctBanks_facts loans) as [Hnd Hin].
  split; [exact Hspec|]. split.
  - rewrite Hspec, <- list_fmap_compose.
    replace (fst ∘ (fun bank => (bank, loansOf toLowerCase loans bank)))
      with (@id string) by done.
    by rewrite list_fmap_id.
  - intros bank group Hg. rewrite Hspec in Hg.
    apply list_elem_of_fmap in Hg as (b & [= -> ->] & Hb).
    destruct (proj1 (Hin b) Hb) as (loan & Hloan & Hbank).
    split; [|split; [done | eauto]].
    intros Hnil. eapply filter_nil_not_elem_of; [exact Hnil| |exact Hloan].
    done.
Qed.

(** X17. Grouping loses no loan and repeats none: the groups laid end to
    end are a rearrangement of the loans, and every loan is in the group
    of its own bank. *)
Theorem grouping_partitions_the_loans (loans : list Loan) :
  concat (snd <$> groupLoansByBank toLowerCase loans) ≡ₚ loans
  /\ forall loan, loan ∈ loans ->
       exists group,
         (bankOf toLowerCase loan, group) ∈ groupLoansByBank toLowerCase loans
         /\ loan ∈ group.
Proof.
  destruct (distinctBanks_facts loans) as [Hnd Hin].
  rewrite groupLoansByBank_spec. split.
  - rewrite <- list_fmap_compose.
    replace (snd ∘ (fun bank => (bank, loansOf toLowerCase loans bank)))
      with (loansOf toLowerCase loans) by done.
    apply classes_partition; [done|]. intros loan Hloan. apply Hin. eauto.
  - intros loan Hloan.
    exists (loansOf toLowerCase loans (bankOf toLowerCase loan)). split.
    + apply list_elem_of_fmap. eexists. split; [reflexivity|].
      apply Hin. eauto.
    + apply list_elem_of_filter. done.
Qed.

End LoansFacts.

Lemma groups_are_the_loans_of_each_bank_witness :
  groupLoansByBank lowerLatin demo_loans
  = [("andbank"%string,
      [demo_loan "Andbank" "Aribau Ventures SL" 1200000;
       demo_loan "ANDBANK" "Esteban Almirall" 500000]);
     ("caixa"%string, [demo_loan "Caixa" "Oikos Builders SL" 850000])]
  /\ [demo_loan "Caixa" "Oikos Builders SL" 850000] <> [].
Proof.
  destruct (groups_are_the_loans_of_each_bank lowerLatin demo_loans)
    as (_ & _ & H).
  split; [vm_compute; reflexivity|].
  apply (H "caixa"%string). vm_compute.
  apply list_elem_of_further, list_elem_of_here.
Defined.

Lemma grouping_partitions_the_loans_witness :
  exists group,
    ("andbank"%string, group) ∈ groupLoansByBank lowerLatin demo_loans
    /\ demo_loan "ANDBANK" "Esteban Almirall" 500000 ∈ group.
Proof.
  destruct (grouping_partitions_the_loans lowerLatin demo_loans) as [_ H].
  apply (H (demo_loan "ANDBANK" "Esteban Almirall" 500000)).
  do 2 apply list_elem_of_further. apply list_elem_of_here.
Defined.

(** ** Retries of the HTTP fetch *)

Lemma fetchLoop_bounds {A} (outcomes : nat -> AttemptOutcome A) :
  forall remaining attempt,
    (requests (fetchLoop outcomes remaining attempt) <= remaining)%nat
    /\ (length (sleeps (fetchLoop outcomes remaining attempt))
        <= requests (fetchLoop outcomes remaining attempt))%nat
    /\ sleeps (fetchLoop outcomes remaining attempt)
         `sublist_of` (retryDelay <$> seq attempt (maxRetries - attempt)).
Proof.
  induction remaining as [|remaining IH]; intros attempt.
  { simpl. repeat split; try lia. apply sublist_nil_l. }
  destruct (IH (S attempt)) as (IHr & IHl & IHs).
  assert (Hsleep : (attempt <? maxRetries)%nat = true ->
            retryDelay attempt
              :: sleeps (fetchLoop outcomes remaining (S attempt))
            `sublist_of` (retryDelay <$> seq attempt (maxRetries - attempt))).
  { intros Hlt%Nat.ltb_lt.
    replace (maxRetries - attempt)%nat with (S (maxRetries - S attempt))
      by lia.
    cbn [seq fmap list_fmap]. by apply sublist_skip. }
  assert (Hquiet : sleeps (fetchLoop outcomes remaining (S attempt))
            `sublist_of` (retryDelay <$> seq attempt (maxRetries - attempt))).
  { destruct (attempt <? maxRetries)%nat eqn:Hlt.
    - etrans; [|by apply Hsleep]. by apply sublist_cons.
    - apply Nat.ltb_ge in Hlt.
      replace (maxRetries - attempt)%nat with 0%nat by lia.
      replace (maxRetries - S attempt)%nat with 0%nat in IHs by lia.
      exact IHs. }
  assert (Hcaught : forall mf m429,
    let run :=
      if (attempt <? maxRetries)%nat && mf
      then one_more [retryDelay attempt]
                    (fetchLoop outcomes remaining (S attempt))
      else if (attempt =? maxRetries)%nat || (negb m429 && negb mf)
           then gives_up
           else one_more [] (fetchLoop outcomes remaining (S attempt)) in
    (requests run <= S remaining)%nat
    /\ (length (sleeps run) <= requests run)%nat
    /\ sleeps run
         `sublist_of` (retryDelay <$> seq attempt (maxRetries - attempt))).
  { intros mf m429.
    destruct ((attempt <? maxRetries)%nat && mf) eqn:E1; cbv zeta.
    - apply andb_prop in E1 as [Hlt _]. simpl.
      repeat split; try lia. by apply Hsleep.
    - destruct ((attempt =? maxRetries)%nat || (negb m429 && negb mf));
        simpl; repeat split; try lia; [apply sublist_nil_l | done]. }
  cbn [fetchLoop]. destruct (outcomes attempt) as [| |mf m429|loans].
  - destruct (attempt <? maxRetries)%nat eqn:Hlt.
    + simpl. repeat split; try lia. by apply Hsleep.
    + exact (Hcaught false true).
  - apply Hcaught.
  - apply Hcaught.
  - simpl. repeat split; try lia. apply sublist_nil_l.
Qed.

Lemma fetchLoop_waits_less {A} (outcomes : nat -> AttemptOutcome A) :
  forall remaining attempt,
    remaining <> 0%nat ->
    (maxRetries < attempt + remaining)%nat ->
    (length (sleeps (fetchLoop outcomes remaining attempt))
     < requests (fetchLoop outcomes remaining attempt))%nat.
Proof.
  induction remaining as [|remaining IH]; intros attempt Hne Hsum; [done|].
  destruct (fetchLoop_bounds outcomes remaining (S attempt)) as (_ & Hl & _).
  assert (Hslept : (attempt <? maxRetries)%nat = true ->
            (length (sleeps (one_more [retryDelay attempt]
                               (fetchLoop outcomes remaining (S attempt))))
             < requests (one_more [retryDelay attempt]
                           (fetchLoop outcomes remaining (S attempt))))%nat).
  { intros Hlt%Nat.ltb_lt. simpl.
    assert ((length (sleeps (fetchLoop outcomes remaining (S attempt)))
             < requests (fetchLoop outcomes remaining (S attempt)))%nat)
      by (apply IH; lia).
    lia. }
  assert (Hcaught : forall mf m429,
    let run :=
      if (attempt <? maxRetries)%nat && mf
      then one_more [retryDelay attempt]
                    (fetchLoop outcomes remaining (S attempt))
      else if (attempt =? maxRetries)%nat || (negb m429 && negb mf)
           then gives_up
           else one_more [] (fetchLoop outcomes remaining (S attempt)) in
    (length (sleeps run) < requests run)%nat).
  { intros mf m429.
    destruct ((attempt <? maxRetries)%nat && mf) eqn:E1; cbv zeta.
    - apply andb_prop in E1 as [Hlt _]. by apply Hslept.
    - destruct ((attempt =? maxRetries)%nat || (negb m429 && negb mf));
        simpl; lia. }
  cbn [fetchLoop]. destruct (outcomes attempt) as [| |mf m429|loans].
  - destruct (attempt <? maxRetries)%nat eqn:Hlt.
    + by apply Hslept.
    + exact (Hcaught false true).
  - apply Hcaught.
  - apply Hcaught.
  - simpl. lia.
Qed.

(** X18. Whatever the storage service answers, [HttpCsvFetcher.fetch]
    makes between one and four requests, and the waits between them are
    taken, in order, from 5 s, 10 s and 20 s: it never waits more than
    35 s in all. *)
Theorem http_fetch_is_bounded {A} (outcomes : nat -> AttemptOutcome A) :
  (1 <= requests (httpCsvFetch outcomes) <= 4)%nat
  /\ sleeps (httpCsvFetch outcomes) `sublist_of` [5000; 10000; 20000]
  /\ (length (sleeps (httpCsvFetch outcomes))
      < requests (httpCsvFetch outcomes))%nat
  /\ foldr Z.add 0 (sleeps (httpCsvFetch outcomes)) <= 35000.
Proof.
  destruct (fetchLoop_bounds outcomes (S maxRetries) 0) as (Hr & _ & Hs).
  fold (httpCsvFetch outcomes) in Hr, Hs.
  change (retryDelay <$> seq 0 (maxRetries - 0)) with [5000; 10000; 20000]
    in Hs.
  assert (Hpos : (1 <= requests (httpCsvFetch outcomes))%nat
                 /\ (length (sleeps (httpCsvFetch outcomes))
                     < requests (httpCsvFetch outcomes))%nat).
  { pose proof (fetchLoop_waits_less outcomes (S maxRetries) 0) as H.
    fold (httpCsvFetch outcomes) in H. unfold maxRetries in H. lia. }
  destruct Hpos as [Hone Hless].
  split; [unfold maxRetries in Hr; lia|]. split; [exact Hs|].
  split; [exact Hless|].
  clear -Hs. revert Hs. generalize (sleeps (httpCsvFetch outcomes)).
  intros l Hs.
  assert (Hsum : forall l1 l2 : list Z, l1 `sublist_of` l2 ->
            Forall (fun d => 0 <= d) l2 ->
            foldr Z.add 0 l1 <= foldr Z.add 0 l2).
  { clear. induction 1 as [|x l1 l2 _ IH|x l1 l2 _ IH]; intros Hpos.
    - done.
    - apply Forall_cons in Hpos as [_ Hpos]. simpl. specialize (IH Hpos). lia.
    - apply Forall_cons in Hpos as [Hx Hpos]. simpl. specialize (IH Hpos). lia. }
  apply (Hsum _ _ Hs). repeat constructor; lia.
Qed.

Lemma fetchLoop_retries {A} (outcomes : nat -> AttemptOutcome A) loans :
  forall k attempt remaining,
    (attempt + k <= maxRetries)%nat ->
    (k < remaining)%nat ->
    outcomes (attempt + k)%nat = Parsed loans ->
    (forall i, (attempt <= i < attempt + k)%nat -> retried (outcomes i) = true) ->
    fetchLoop outcomes remaining attempt
    = {| fetched := Some loans; requests := S k;
         sleeps := retryDelay <$> seq attempt k |}.
Proof.
  induction k as [|k IH]; intros attempt remaining Hmax Hrem Hok Hretried;
    (destruct remaining as [|remaining]; [lia|]); cbn [fetchLoop].
  - rewrite Nat.add_0_r in Hok. by rewrite Hok.
  - assert (Hlt : (attempt <? maxRetries)%nat = true)
      by (apply Nat.ltb_lt; lia).
    assert (Hrest : fetchLoop outcomes remaining (S attempt)
                    = {| fetched := Some loans; requests := S k;
                         sleeps := retryDelay <$> seq (S attempt) k |}).
    { apply IH; [lia | lia | |].
      - by replace (S attempt + k)%nat with (attempt + S k)%nat by lia.
      - intros i Hi. apply Hretried. lia. }
    pose proof (Hretried attempt ltac:(lia)) as Hr.
    rewrite Hlt. cbn [andb].
    destruct (outcomes attempt) as [| |[|] m429|l]; try discriminate Hr;
      rewrite Hrest; reflexivity.
Qed.

Lemma fetchLoop_stops {A} (outcomes : nat -> AttemptOutcome A) :
  forall k attempt remaining,
    (attempt + k <= maxRetries)%nat ->
    (k < remaining)%nat ->
    outcomes (attempt + k)%nat = Thrown false false ->
    (forall i, (attempt <= i < attempt + k)%nat -> retried (outcomes i) = true) ->
    fetchLoop outcomes remaining attempt
    = {| fetched := None; requests := S k;
         sleeps := retryDelay <$> seq attempt k |}.
Proof.
  induction k as [|k IH]; intros attempt remaining Hmax Hrem Hstop Hretried;
    (destruct remaining as [|remaining]; [lia|]); cbn [fetchLoop].
  - rewrite Nat.add_0_r in Hstop. rewrite Hstop.
    by destruct (attempt <? maxRetries)%nat, (attempt =? maxRetries)%nat.
  - assert (Hlt : (attempt <? maxRetries)%nat = true)
      by (apply Nat.ltb_lt; lia).
    assert (Hrest : fetchLoop outcomes remaining (S attempt)
                    = {| fetched := None; requests := S k;
                         sleeps := retryDelay <$> seq (S attempt) k |}).
    { apply IH; [lia | lia | |].
      - by replace (S attempt + k)%nat with (attempt + S k)%nat by lia.
      - intros i Hi. apply Hretried. lia. }
    pose proof (Hretried attempt ltac:(lia)) as Hr.
    rewrite Hlt. cbn [andb].
    destruct (outcomes attempt) as [| |[|] m429|l]; try discriminate Hr;
      rewrite Hrest; reflexivity.
Qed.

(** X19. A 429, any other status that is not ok, and an exception that
    mentions 'fetch' are all answered alike while turns are left: wait,
    then ask again.  So when the k-th retry (k at most 3) brings a CSV
    that parses and all turns before it failed in one of these ways, the
    loans of that CSV are returned after k + 1 requests and the waits
    5 s, 10 s, ... in order.  An exception that mentions neither 'fetch'
    nor '429', such as a CSV that does not parse, ends the fetch on the
    turn it is thrown in, first or later: the fetch fails after that
    request, with no further wait and no further request. *)
Theorem http_fetch_retries_then_returns {A}
    (outcomes : nat -> AttemptOutcome A) :
  (forall k loans,
      (k <= maxRetries)%nat ->
      outcomes k = Parsed loans ->
      (forall i, (i < k)%nat -> retried (outcomes i) = true) ->
      httpCsvFetch outcomes
      = {| fetched := Some loans; requests := S k;
           sleeps := retryDelay <$> seq 0 k |})
  /\ (forall k,
        (k <= maxRetries)%nat ->
        outcomes k = Thrown false false ->
        (forall i, (i < k)%nat -> retried (outcomes i) = true) ->
        httpCsvFetch outcomes
        = {| fetched := None; requests := S k;
             sleeps := retryDelay <$> seq 0 k |}).
Proof.
  split.
  - intros k loans Hk Hok Hretried. unfold httpCsvFetch.
    apply fetchLoop_retries;
      [exact Hk | lia | exact Hok | intros i Hi; apply Hretried; lia].
  - intros k Hk Hstop Hretried. unfold httpCsvFetch.
    apply fetchLoop_stops;
      [exact Hk | lia | exact Hstop | intros i Hi; apply Hretried; lia].
Qed.

Lemma http_fetch_retries_then_returns_witness :
  httpCsvFetch (fun attempt => match attempt with
                               | 0%nat => HttpNotOk
                               | 1%nat => Http429
                               | _ => Parsed demo_loans
                               end)
  = {| fetched := Some demo_loans; requests := 3; sleeps := [5000; 10000] |}
  /\ httpCsvFetch (fun attempt => match attempt with
                                  | 0%nat => Http429
                                  | _ => Thrown false false
                                  end)
     = {| fetched := @None (list (LoanRecord Z)); requests := 2;
          sleeps := [5000] |}.
Proof.
  split.
  - apply (http_fetch_retries_then_returns
             (fun attempt => match attempt with
                             | 0%nat => HttpNotOk
                             | 1%nat => Http429
                             | _ => Parsed demo_loans
                             end)).
    + unfold maxRetries. lia.
    + reflexivity.
    + intros [|[|i]] Hi; [reflexivity | reflexivity | lia].
  - apply (http_fetch_retries_then_returns
             (fun attempt => match attempt with
                             | 0%nat => Http429
                             | _ => Thrown false false
                             end)).
    + unfold maxRetries. lia.
    + reflexivity.
    + intros [|i] Hi; [reflexivity | lia].
Defined.
